(** * ProductNameGenerator: the CVCV name pipeline

    A shallow embedding of the generator, the filters and the engine of
    [gename.py] (the command-line tool) and of the copy of them embedded in
    [main.py] (the desktop interface), with the properties the specification
    states about them.

    Conventions of the embedding.
    - A Python [str] is a [string]; a character is an [ascii], read as a code
      point below 256.  Strings with code points above 255 are outside of the
      model.
    - A generator function is the list of the values it yields, followed by
      either its normal end or the exception that ends it ([Gen]).
    - The file system is reduced to the directory that [export_grouped]
      receives: whether it exists, the files it holds, and the lines printed
      on the standard output ([World]).  Calls on that directory that are
      given a usable file name succeed; the failure of a system call for
      lack of permissions or space is not modelled.
    - The iteration order of a Python [set] and the listing order of a
      directory are unspecified; the model iterates in the order of stdpp's
      [elements] and [map_to_list], and no statement below depends on which
      order that is. *)

From Stdlib Require Import Ascii String List NArith Lia.
From stdpp Require Import base tactics option list sorting gmap sets strings.

Local Open Scope string_scope.
Local Open Scope list_scope.

(** ** Python values and built-ins *)

Inductive exn : Type :=
  | ValueError (msg : string)
  | IndexError (msg : string)
  | OSError (msg : string).

Inductive result (A : Type) : Type :=
  | Ok (a : A)
  | Raise (e : exn).
Arguments Ok {A} a.
Arguments Raise {A} e.

Global Instance result_ret : MRet result := fun A a => Ok a.
Global Instance result_bind : MBind result := fun A B f m =>
  match m with
  | Ok a => f a
  | Raise e => Raise e
  end.

(** Iterating over a [str] gives its characters; [str] joins them back. *)
Definition chars (s : string) : list ascii := list_ascii_of_string s.
Definition str (l : list ascii) : string := string_of_list_ascii l.

(** The truth value of an optional [str] argument: [None] and the empty
    string are both false. *)
Definition truthy (s : option string) : bool :=
  match s with
  | Some (String _ _) => true
  | _ => false
  end.

(** [x if x else d] on an optional [str]. *)
Definition or_else (x : option string) (d : string) : string :=
  if truthy x then default "" x else d.

(** [str.lower] on code points below 256: the letters A-Z and the Latin-1
    capitals (192-222, but for the multiplication sign 215) move up by 32. *)
Definition lower_char (c : ascii) : ascii :=
  let n := nat_of_ascii c in
  if ((65 <=? n) && (n <=? 90) || (192 <=? n) && (n <=? 222) && negb (n =? 215))%nat
  then ascii_of_nat (n + 32)
  else c.

Fixpoint lower (s : string) : string :=
  match s with
  | "" => ""
  | String c s' => String (lower_char c) (lower s')
  end.

Definition ascii_lowercase : string := "abcdefghijklmnopqrstuvwxyz".

(** [sub in s] on strings: [sub] occurs in [s] as a substring. *)
Fixpoint str_in (sub s : string) : bool :=
  String.prefix sub s ||
  match s with
  | "" => false
  | String _ s' => str_in sub s'
  end.

(** [c in s] for a character [c]. *)
Definition char_in (c : ascii) (s : string) : bool := str_in (String c "") s.

(** [s[i]]: an [IndexError] past the end. *)
Definition index (s : string) (i : nat) : result ascii :=
  match String.get i s with
  | Some c => Ok c
  | None => Raise (IndexError "string index out of range")
  end.

(** [s.replace(old, new)] for a non-empty [old]: the occurrences of [old]
    are replaced from left to right, without overlap.  [skip] counts the
    characters of an occurrence that are still to be dropped. *)
Fixpoint replace_from (skip : nat) (old new s : string) : string :=
  match s with
  | "" => ""
  | String c s' =>
      match skip with
      | S k => replace_from k old new s'
      | O =>
          if String.prefix old s
          then new +:+ replace_from (String.length old - 1) old new s'
          else String c (replace_from 0 old new s')
      end
  end.

Definition replace (s old new : string) : string := replace_from 0 old new s.

(** [s.endswith(suffix)]. *)
Definition endswith (s suffix : string) : bool :=
  String.prefix (str (rev (chars suffix))) (str (rev (chars s))).

(** Characters are ordered by code point. *)
Definition char_le (a b : ascii) : Prop := nat_of_ascii a <= nat_of_ascii b.
Definition char_lt (a b : ascii) : Prop := nat_of_ascii a < nat_of_ascii b.

Global Instance char_le_dec : RelDecision char_le.
Proof. intros a b. unfold char_le. apply _. Defined.

(** [sorted] on characters: Python's sort is a merge sort. *)
Definition sorted (l : list ascii) : list ascii := merge_sort char_le l.

(** [set(s)] for a string [s]. *)
Definition py_set (s : string) : gset ascii := list_to_set (chars s).

(** [itertools.product] on the list of its arguments, after the equivalent
    code of the library's documentation:
<<
    result = [[]]
    for pool in pools:
        result = [x+[y] for x in result for y in pool]
>> *)
Definition product {A : Type} (pools : list (list A)) : list (list A) :=
  foldl (fun result pool =>
           flat_map (fun x => map (fun y => x ++ [y]) pool) result)
        [[]] pools.

(** [sep.join(names)]. *)
Definition join (sep : string) (names : list string) : string :=
  String.concat sep names.

(** ** Generators *)

(** What a generator does when it is consumed to its end: the values it
    yields, in order, then a normal end or an exception. *)
Record Gen (A : Type) : Type := MkGen {
  yielded : list string;
  outcome : result A
}.
Arguments MkGen {A} yielded outcome.
Arguments yielded {A} g.
Arguments outcome {A} g.

Global Instance gen_ret : MRet Gen := fun A a => MkGen [] (Ok a).
Global Instance gen_bind : MBind Gen := fun A B f m =>
  match outcome m with
  | Ok a => let r := f a in MkGen (yielded m ++ yielded r) (outcome r)
  | Raise e => MkGen (yielded m) (Raise e)
  end.

Definition yield (s : string) : Gen unit := MkGen [s] (Ok tt).
Definition gen_raise {A : Type} (e : exn) : Gen A := MkGen [] (Raise e).
Definition gen_lift {A : Type} (r : result A) : Gen A := MkGen [] r.

(** [for x in xs: body] inside a generator. *)
Fixpoint gen_for {A : Type} (xs : list A) (body : A -> Gen unit) : Gen unit :=
  match xs with
  | [] => mret tt
  | x :: xs' => body x ≫= fun _ => gen_for xs' body
  end.

(** [for x in g: body] where [g] is itself a generator: [body] runs on each
    value [g] yields, and the exception that ends [g] ends the loop. *)
Definition gen_for_gen (g : Gen unit) (body : string -> Gen unit) : Gen unit :=
  gen_for (yielded g) body ≫= fun _ => gen_lift (outcome g).

(** [for name in g: state = body(name, state)] outside of a generator:
    [g] is consumed to its end, and the exception that ends it, if any, is
    raised once the values it yielded have been handled. *)
Fixpoint fold_result {S : Type} (body : string -> S -> result S)
    (names : list string) (s : S) : result S :=
  match names with
  | [] => Ok s
  | name :: rest => body name s ≫= fold_result body rest
  end.

Definition consume {S : Type} (g : Gen unit) (body : string -> S -> result S)
    (s : S) : result S :=
  s' ← fold_result body (yielded g) s;
  outcome g ≫= fun _ => Ok s'.

(** ** The output folder and the standard output *)

(** [os.path.join(a, b)] and [os.path.basename(p)] of [posixpath]. *)
Definition path_join (a b : string) : string :=
  if String.prefix "/" b then b
  else if String.eqb a "" || endswith a "/" then a +:+ b
  else a +:+ "/" +:+ b.

Fixpoint basename (p : string) : string :=
  match p with
  | "" => ""
  | String _ p' => if char_in "/" p then basename p' else p
  end.

(** The directory at path [mount]: [entries] is [None] while it does not
    exist, and otherwise maps the name of each file in it to its content.
    [stdout] holds what each [print] wrote, oldest first. *)
Record World : Type := MkWorld {
  mount : string;
  entries : option (gmap string string);
  stdout : list string
}.

Definition IO (A : Type) : Type := World -> World * result A.

Global Instance io_ret : MRet IO := fun A a w => (w, Ok a).
Global Instance io_bind : MBind IO := fun A B f m w =>
  match m w with
  | (w', Ok a) => f a w'
  | (w', Raise e) => (w', Raise e)
  end.

Definition io_lift {A : Type} (r : result A) : IO A := fun w => (w, r).

Fixpoint io_for {A : Type} (xs : list A) (body : A -> IO unit) : IO unit :=
  match xs with
  | [] => mret tt
  | x :: xs' => body x ≫= fun _ => io_for xs' body
  end.

(** [for name in g: body] on a generator [g]: the body runs as the names
    are yielded, before the exception that may end [g]. *)
Definition io_for_gen (g : Gen unit) (body : string -> IO unit) : IO unit :=
  io_for (yielded g) body ≫= fun _ => io_lift (outcome g).

Definition print (line : string) : IO unit := fun w =>
  (MkWorld (mount w) (entries w) (stdout w ++ [line]), Ok tt).

(** The name under which [path] lies directly in the directory, if it does:
    [path] is the directory's path joined with a file name. *)
Definition name_in_folder (w : World) (path : string) : option string :=
  let name := basename path in
  if String.eqb path (path_join (mount w) name)
     && negb (String.eqb name "") && negb (char_in zero name)
  then Some name
  else None.

Definition outside {A : Type} : result A :=
  Raise (OSError "path outside of the output folder").

(** A path that can name a directory: it is not empty and holds no null
    character. *)
Definition creatable (folder : string) : bool :=
  negb (String.eqb folder "") && negb (char_in zero folder).

(** A path that [glob] reads as it is written: it holds none of the
    pattern characters. *)
Definition literal (folder : string) : bool :=
  negb (char_in "[" folder) && negb (char_in "*" folder)
  && negb (char_in "?" folder).

Definition usable_folder (folder : string) : bool :=
  creatable folder && literal folder.

(** [os.makedirs(folder, exist_ok=True)]: a null character in the path is
    a [ValueError], the empty path a [FileNotFoundError]. *)
Definition makedirs (folder : string) : IO unit := fun w =>
  if char_in zero folder then (w, Raise (ValueError "embedded null byte"))
  else if String.eqb folder ""
  then (w, Raise (OSError "No such file or directory"))
  else if String.eqb folder (mount w)
  then (MkWorld (mount w) (Some (default ∅ (entries w))) (stdout w), Ok tt)
  else (w, outside).

(** [fnmatch] of a file name against ["*.txt"], as [glob] applies it: the
    name ends in [.txt], and a name that starts with a dot is hidden. *)
Definition matches_star_txt (name : string) : bool :=
  endswith name ".txt" && negb (String.prefix "." name).

(** [glob.glob(pattern)] for the pattern ["*.txt"] in the directory.  When
    the path of the directory holds a pattern character, [glob] reads it as
    a pattern and lists other directories, which the model does not
    follow. *)
Definition glob (pattern : string) : IO (list string) := fun w =>
  if String.eqb pattern (path_join (mount w) "*.txt") && literal (mount w)
  then (w, Ok (path_join (mount w) <$>
                 filter (fun name => matches_star_txt name = true)
                        (elements (dom (default ∅ (entries w))))))
  else (w, outside).

(** [os.path.exists(folder)]: false for a path that can name no
    directory. *)
Definition path_exists (folder : string) : IO bool := fun w =>
  if negb (creatable folder) then (w, Ok false)
  else if String.eqb folder (mount w)
  then (w, Ok (bool_decide (is_Some (entries w))))
  else (w, outside).

(** [os.remove(path)]. *)
Definition os_remove (path : string) : IO unit := fun w =>
  match name_in_folder w path, entries w with
  | Some name, Some files =>
      match files !! name with
      | Some _ => (MkWorld (mount w) (Some (delete name files)) (stdout w), Ok tt)
      | None => (w, Raise (OSError "No such file or directory"))
      end
  | _, _ => (w, outside)
  end.

(** [with open(path, "w") as f: f.write(content)]. *)
Definition write_file (path content : string) : IO unit := fun w =>
  match name_in_folder w path, entries w with
  | Some name, Some files =>
      (MkWorld (mount w) (Some (<[name := content]> files)) (stdout w), Ok tt)
  | _, _ => (w, outside)
  end.

Definition newline : string := String "010" "".

(** ** gename.py: the command-line tool *)

Module Gename.

(** *** Generator *)

Record CVCVGenerator : Type := MkCVCVGenerator {
  vowels : string;
  consonants : string;
  first : option string
}.

Definition __init__ (vowels consonants add_vowels add_consonants : option string)
    (include_y : bool) (first : option string) : CVCVGenerator :=
  let default_vowels := "aeiou" in
  let default_vowels :=
    if include_y then default_vowels +:+ "y" else default_vowels in
  let base_vowels := or_else vowels default_vowels in
  let base_vowels :=
    if truthy add_vowels then base_vowels +:+ default "" add_vowels
    else base_vowels in
  let self_vowels := str (sorted (elements (py_set (lower base_vowels)))) in
  let base_consonants :=
    if truthy consonants then default "" consonants
    else str (filter (fun c => char_in c self_vowels = false)
                     (chars ascii_lowercase)) in
  let base_consonants :=
    if truthy add_consonants then base_consonants +:+ default "" add_consonants
    else base_consonants in
  let self_consonants :=
    str (sorted (elements (py_set (lower base_consonants)))) in
  MkCVCVGenerator self_vowels self_consonants
    (if truthy first then lower <$> first else None).

Definition generate (self : CVCVGenerator) : Gen unit :=
  first_letters ←
    (if truthy (first self) then
       let pin := default "" (first self) in
       if negb (str_in pin (consonants self)) then
         gen_raise (ValueError ("First letter '" +:+ pin +:+
                                "' must exist in consonant set."))
       else mret pin
     else mret (consonants self));
  gen_for (product [chars first_letters; chars (vowels self);
                    chars (consonants self); chars (vowels self)])
    (fun t =>
       match t with
       | [c1; v1; c2; v2] => yield (str [c1; v1; c2; v2])
       | _ => gen_raise (ValueError "wrong number of values to unpack")
       end).

(** *** Filters *)

(** The class [NameFilter] and its four subclasses; [NoFilter] inherits
    [apply] from the base class. *)
Inductive NameFilter : Type :=
  | NameFilterBase
  | NoFilter
  | OnlyRepeatingVowels
  | OnlyRepeatingConsonants
  | OnlyRepeatingBoth.

Definition apply (self : NameFilter) (name : string) : result bool :=
  match self with
  | NameFilterBase | NoFilter => Ok true
  | OnlyRepeatingVowels =>
      a ← index name 1; b ← index name 3; Ok (Ascii.eqb a b)
  | OnlyRepeatingConsonants =>
      a ← index name 0; b ← index name 2; Ok (Ascii.eqb a b)
  | OnlyRepeatingBoth =>
      a ← index name 0; b ← index name 2;
      if Ascii.eqb a b
      then c ← index name 1; d ← index name 3; Ok (Ascii.eqb c d)
      else Ok false
  end.

Definition get_filter (filter_type : string) : NameFilter :=
  let filters : gmap string NameFilter :=
    <["none" := NoFilter]>
      (<["repeat_vowels" := OnlyRepeatingVowels]>
         (<["repeat_consonants" := OnlyRepeatingConsonants]>
            (<["repeat_both" := OnlyRepeatingBoth]> ∅))) in
  default NoFilter (filters !! filter_type).

(** *** Engine *)

Record NameEngine : Type := MkNameEngine {
  generator : CVCVGenerator;
  name_filter : NameFilter;
  suffix : string
}.

Definition run (self : NameEngine) : Gen unit :=
  gen_for_gen (generate (generator self)) (fun name =>
    keep ← gen_lift (apply (name_filter self) name);
    if keep : bool then yield (name +:+ suffix self) else mret tt).

(** [grouped.setdefault(name[0], []).append(name)]. *)
Definition group_name (name : string) (grouped : gmap string (list string))
    : result (gmap string (list string)) :=
  c ← index name 0;
  Ok (<[String c "" := default [] (grouped !! String c "") ++ [name]]> grouped).

Definition allowed_letters (g : CVCVGenerator) : gset string :=
  if truthy (first g) then {[ default "" (first g) ]}
  else list_to_set ((fun c => String c "") <$> chars (consonants g)).

Definition export_grouped (self : NameEngine) (folder : string) : IO unit :=
  makedirs folder;;
  grouped ← io_lift (consume (run self) group_name ∅);
  let allowed_letters := allowed_letters (generator self) in
  paths ← glob (path_join folder "*.txt");
  io_for paths (fun file_path =>
    let filename := basename file_path in
    let letter := replace filename ".txt" "" in
    if bool_decide (letter ∉ allowed_letters)
    then os_remove file_path;; print ("Deleted " +:+ file_path)
    else mret tt);;
  io_for (elements allowed_letters) (fun letter =>
    let file_path := path_join folder (letter +:+ ".txt") in
    let names := default [] (grouped !! letter) in
    write_file file_path (join newline names);;
    print ("Wrote " +:+ file_path));;
  print (newline +:+ "Export complete -> " +:+ folder +:+ "/").
(* The arrow of the last message is a code point above 255; the model
   writes it [->]. *)

(** *** Command line *)

Definition clear_output (folder : string) (allowed_letters : option (gset string))
    : IO unit :=
  found ← path_exists folder;
  if negb found then print "No output folder exists."
  else
    paths ← glob (path_join folder "*.txt");
    io_for paths (fun file_path =>
      let filename := basename file_path in
      let name_without_ext := replace filename ".txt" "" in
      if (String.length name_without_ext =? 1)%nat then
        if match allowed_letters with
           | None => true
           | Some allowed => bool_decide (name_without_ext ∉ allowed)
           end
        then os_remove file_path;; print ("Deleted " +:+ file_path)
        else mret tt
      else mret tt).

(** The namespace that [argparse] hands to [main]; [filter] is one of the
    four choices of the [--filter] option. *)
Record Args : Type := MkArgs {
  arg_filter : string;
  arg_suffix : string;
  arg_vowels : option string;
  arg_consonants : option string;
  arg_first : option string;
  arg_include_y : bool;
  arg_export : bool;
  arg_clear : bool;
  arg_add_vowels : option string;
  arg_add_consonants : option string
}.

Definition main (args : Args) : IO unit :=
  let output_folder := "output" in
  let allowed_letters : option (gset string) :=
    if truthy (arg_first args) then Some {[ default "" (arg_first args) ]}
    else if truthy (arg_consonants args)
    then Some (list_to_set ((fun c => String c "") <$>
                              chars (default "" (arg_consonants args))))
    else None in
  (if arg_clear args then clear_output output_folder allowed_letters
   else mret tt);;
  let generator :=
    __init__ (arg_vowels args) (arg_consonants args) (arg_add_vowels args)
             (arg_add_consonants args) (arg_include_y args) (arg_first args) in
  let selected_filter := get_filter (arg_filter args) in
  let engine := MkNameEngine generator selected_filter (arg_suffix args) in
  if arg_export args then export_grouped engine output_folder
  else io_for_gen (run engine) print.

End Gename.

(** ** main.py: the generator, filters and engine embedded in the desktop
    interface *)

Module Main.

Record CVCVGenerator : Type := MkCVCVGenerator {
  vowels : string;
  consonants : string;
  first : option string
}.

Definition __init__ (vowels consonants add_vowels add_consonants : option string)
    (include_y : bool) (first : option string) : CVCVGenerator :=
  let default_vowels := "aeiou" in
  let default_vowels :=
    if include_y then default_vowels +:+ "y" else default_vowels in
  let base_vowels := or_else vowels default_vowels in
  let base_vowels :=
    if truthy add_vowels then base_vowels +:+ default "" add_vowels
    else base_vowels in
  let self_vowels := str (sorted (elements (py_set (lower base_vowels)))) in
  let base_consonants :=
    if truthy consonants then default "" consonants
    else str (filter (fun c => char_in c self_vowels = false)
                     (chars ascii_lowercase)) in
  let base_consonants :=
    if truthy add_consonants then base_consonants +:+ default "" add_consonants
    else base_consonants in
  let self_consonants :=
    str (sorted (elements (py_set (lower base_consonants)))) in
  MkCVCVGenerator self_vowels self_consonants
    (if truthy first then lower <$> first else None).

Definition generate (self : CVCVGenerator) : Gen unit :=
  first_letters ←
    (if truthy (first self) then
       let pin := default "" (first self) in
       if negb (str_in pin (consonants self)) then
         gen_raise (ValueError ("First letter '" +:+ pin +:+
                                "' must exist in consonant set."))
       else mret pin
     else mret (consonants self));
  gen_for (product [chars first_letters; chars (vowels self);
                    chars (consonants self); chars (vowels self)])
    (fun t =>
       match t with
       | [c1; v1; c2; v2] => yield (str [c1; v1; c2; v2])
       | _ => gen_raise (ValueError "wrong number of values to unpack")
       end).

(** The four filter classes; here they have no common base class. *)
Inductive NameFilter : Type :=
  | NoFilter
  | OnlyRepeatingVowels
  | OnlyRepeatingConsonants
  | OnlyRepeatingBoth.

Definition apply (self : NameFilter) (n : string) : result bool :=
  match self with
  | NoFilter => Ok true
  | OnlyRepeatingVowels =>
      a ← index n 1; b ← index n 3; Ok (Ascii.eqb a b)
  | OnlyRepeatingConsonants =>
      a ← index n 0; b ← index n 2; Ok (Ascii.eqb a b)
  | OnlyRepeatingBoth =>
      a ← index n 0; b ← index n 2;
      if Ascii.eqb a b
      then c ← index n 1; d ← index n 3; Ok (Ascii.eqb c d)
      else Ok false
  end.

Definition FILTERS : gmap string NameFilter :=
  <["None" := NoFilter]>
    (<["Repeating Vowels" := OnlyRepeatingVowels]>
       (<["Repeating Consonants" := OnlyRepeatingConsonants]>
          (<["Repeating Both" := OnlyRepeatingBoth]> ∅))).

Record NameEngine : Type := MkNameEngine {
  generator : CVCVGenerator;
  name_filter : NameFilter;
  suffix : string
}.

Definition run (self : NameEngine) : Gen unit :=
  gen_for_gen (generate (generator self)) (fun name =>
    keep ← gen_lift (apply (name_filter self) name);
    if keep : bool then yield (name +:+ suffix self) else mret tt).

Definition group_name (name : string) (grouped : gmap string (list string))
    : result (gmap string (list string)) :=
  c ← index name 0;
  Ok (<[String c "" := default [] (grouped !! String c "") ++ [name]]> grouped).

Definition allowed_letters (g : CVCVGenerator) : gset string :=
  if truthy (first g) then {[ default "" (first g) ]}
  else list_to_set ((fun c => String c "") <$> chars (consonants g)).

(** [written.append(file_path)] in the loop over the allowed letters. *)
Fixpoint write_allowed (folder : string) (grouped : gmap string (list string))
    (letters : list string) (written : list string) : IO (list string) :=
  match letters with
  | [] => mret written
  | letter :: rest =>
      let file_path := path_join folder (letter +:+ ".txt") in
      let names := default [] (grouped !! letter) in
      write_file file_path (join newline names);;
      write_allowed folder grouped rest (written ++ [file_path])
  end.

Definition export_grouped (self : NameEngine) (folder : string)
    : IO (list string * nat) :=
  makedirs folder;;
  grouped ← io_lift (consume (run self) group_name ∅);
  let allowed_letters := allowed_letters (generator self) in
  paths ← glob (path_join folder "*.txt");
  io_for paths (fun file_path =>
    let letter := replace (basename file_path) ".txt" "" in
    if bool_decide (letter ∉ allowed_letters)
    then os_remove file_path
    else mret tt);;
  written ← write_allowed folder grouped (elements allowed_letters) [];
  mret (written, sum_list (length <$> (map_to_list grouped).*2)).

End Main.

(** ** main.py: the methods of the window that compute on names *)

(** [s.strip()]: the white space of both ends is dropped; below 256 the
    white-space characters are 9-13, 28-32, 133 and 160. *)
Definition isspace (c : ascii) : bool :=
  let n := nat_of_ascii c in
  ((9 <=? n) && (n <=? 13) || (28 <=? n) && (n <=? 32)
   || (n =? 133) || (n =? 160))%nat.

Fixpoint lstrip_chars (l : list ascii) : list ascii :=
  match l with
  | c :: l' => if isspace c then lstrip_chars l' else l
  | [] => []
  end.

Definition strip (s : string) : string :=
  str (rev (lstrip_chars (rev (lstrip_chars (chars s))))).

(** [x or None] on a string. *)
Definition or_none (s : string) : option string :=
  match s with
  | "" => None
  | _ => Some s
  end.

(** [format(n, "<8")]: [n] padded with spaces on the right up to eight
    characters, and left as it is when longer. *)
Definition ljust (width : nat) (s : string) : string :=
  s +:+ str (replicate (width - String.length s) " "%char).

(** [range(0, stop, step)] for a positive [step]. *)
Definition range_step (stop step : nat) : list nat :=
  (fun k => k * step) <$> seq 0 ((stop + step - 1) / step).

Module CVCVApp.

(** The variables of the form, as the user left them. *)
Record Form : Type := MkForm {
  _vowels_var : string;
  _add_vowels_var : string;
  _consonants_var : string;
  _add_consonants_var : string;
  _include_y : bool;
  _filter_var : string;
  _suffix_var : string;
  _first_var : string
}.

(** [_make_generator]; [None] stands for the [KeyError] of [FILTERS[...]]
    on a label that is not in the table. *)
Definition _make_generator (self : Form) : option Main.NameEngine :=
  let vowels := or_none (strip (_vowels_var self)) in
  let consonants := or_none (strip (_consonants_var self)) in
  let add_v := or_none (strip (_add_vowels_var self)) in
  let add_c := or_none (strip (_add_consonants_var self)) in
  let first := or_none (strip (_first_var self)) in
  let include_y := _include_y self in
  let gen := Main.__init__ vowels consonants add_v add_c include_y first in
  filt ← Main.FILTERS !! _filter_var self;
  let suffix := strip (_suffix_var self) in
  Some (Main.MkNameEngine gen filt suffix).

(** The text that [_display] puts in the results box: the names in rows of
    six cells of eight columns, three spaces apart. *)
Definition _display (names : list string) : string :=
  match names with
  | _ :: _ =>
      let cols := 6 in
      let lines :=
        (fun i => join "   " (ljust 8 <$> take cols (drop i names)))
          <$> range_step (length names) cols in
      join newline lines
  | [] => newline +:+ "  No names matched the current settings."
  end.

(** The names that [_on_search] hands to [_display], from the text of the
    search field and the results held; [None] when it returns before
    displaying anything, the results being empty.  The count label is not
    modelled. *)
Definition _on_search (search_var : string) (_results : list string)
    : option (list string) :=
  let query := lower search_var in
  match _results with
  | [] => None
  | _ :: _ =>
      Some (match query with
            | "" => _results
            | _ => filter (fun n => str_in query n = true) _results
            end)
  end.

End CVCVApp.

(** ** Reference definitions

    The statements below compare the code with these definitions, which
    follow the wording of the specification. *)

(** The names of four nested loops, the innermost varying fastest. *)
Definition nested_loops (first_letters vowels consonants : list ascii)
    : list string :=
  flat_map (fun c1 =>
    flat_map (fun v1 =>
      flat_map (fun c2 =>
        map (fun v2 => str [c1; v1; c2; v2]) vowels)
      consonants)
    vowels)
  first_letters.

(** A letter set of [base]: the characters of the lowercased [base], each
    once, in increasing order. *)
Definition letter_set_of (set base : string) : Prop :=
  StronglySorted char_lt (chars set) /\
  forall c, c ∈ chars set <-> c ∈ chars (lower base).

(** The bases of the two letter sets, from the arguments of the builder. *)
Definition provided (x : option string) : option string :=
  match x with
  | Some (String c s) => Some (String c s)
  | _ => None
  end.

Definition vowel_base (vowels add_vowels : option string) (include_y : bool)
    : string :=
  match provided vowels with
  | Some v => v
  | None => if include_y then "aeiouy" else "aeiou"
  end +:+ default "" (provided add_vowels).

Definition consonant_base (consonants add_consonants : option string)
    (vowel_set : string) : string :=
  match provided consonants with
  | Some c => c
  | None => str (filter (fun c => c ∉ chars vowel_set) (chars ascii_lowercase))
  end +:+ default "" (provided add_consonants).

(** The repetition policies on a four-character core. *)
Inductive FilterKind : Type :=
  | KindNone
  | KindRepeatVowels
  | KindRepeatConsonants
  | KindRepeatBoth.

Definition kind_name (k : FilterKind) : string :=
  match k with
  | KindNone => "none"
  | KindRepeatVowels => "repeat_vowels"
  | KindRepeatConsonants => "repeat_consonants"
  | KindRepeatBoth => "repeat_both"
  end.

Definition same_at (i j : nat) (core : string) : bool :=
  bool_decide (String.get i core = String.get j core).

Definition accepts (k : FilterKind) (core : string) : bool :=
  match k with
  | KindNone => true
  | KindRepeatVowels => same_at 1 3 core
  | KindRepeatConsonants => same_at 0 2 core
  | KindRepeatBoth => same_at 0 2 core && same_at 1 3 core
  end.

(** The class of a filter object selects a policy. *)
Definition policy (f : Gename.NameFilter) : FilterKind :=
  match f with
  | Gename.NameFilterBase | Gename.NoFilter => KindNone
  | Gename.OnlyRepeatingVowels => KindRepeatVowels
  | Gename.OnlyRepeatingConsonants => KindRepeatConsonants
  | Gename.OnlyRepeatingBoth => KindRepeatBoth
  end.

(** The alphabet of the first position: the pinned letter when there is
    one, the consonant set otherwise. *)
Definition first_alphabet (g : Gename.CVCVGenerator) : string :=
  match provided (Gename.first g) with
  | Some pin => pin
  | None => Gename.consonants g
  end.

(** The pin, when there is one, occurs in the consonant set. *)
Definition valid_pin (g : Gename.CVCVGenerator) : bool :=
  match provided (Gename.first g) with
  | Some pin => str_in pin (Gename.consonants g)
  | None => true
  end.

Definition pin_error (pin : string) : exn :=
  ValueError ("First letter '" +:+ pin +:+ "' must exist in consonant set.").

(** The generator, filter and engine of [main.py] read as those of
    [gename.py]: same fields, class of the same name. *)
Definition cli_generator (g : Main.CVCVGenerator) : Gename.CVCVGenerator :=
  Gename.MkCVCVGenerator (Main.vowels g) (Main.consonants g) (Main.first g).

Definition cli_filter (f : Main.NameFilter) : Gename.NameFilter :=
  match f with
  | Main.NoFilter => Gename.NoFilter
  | Main.OnlyRepeatingVowels => Gename.OnlyRepeatingVowels
  | Main.OnlyRepeatingConsonants => Gename.OnlyRepeatingConsonants
  | Main.OnlyRepeatingBoth => Gename.OnlyRepeatingBoth
  end.

Definition cli_engine (e : Main.NameEngine) : Gename.NameEngine :=
  Gename.MkNameEngine (cli_generator (Main.generator e))
    (cli_filter (Main.name_filter e)) (Main.suffix e).

(** A name that can be a file name: it is not empty and holds neither a
    slash nor the null character. *)
Definition plain (name : string) : bool :=
  negb (String.eqb name "") && negb (char_in "/" name)
  && negb (char_in zero name).

(** The names of the files of a directory are file names. *)
Definition wf_world (w : World) : Prop :=
  forall name, name ∈ dom (default ∅ (entries w)) -> plain name = true.

(** The files that the export removes: those that [glob] lists and whose
    name without [.txt] is not an allowed letter. *)
Definition unwanted (allowed : gset string) (name : string) : bool :=
  matches_star_txt name && bool_decide (replace name ".txt" "" ∉ allowed).

(** The directory once the unwanted files are removed. *)
Definition sweep (allowed : gset string) (files : gmap string string)
    : gmap string string :=
  filter (fun entry => unwanted allowed entry.1 = false) files.

(** The names of a list that start with the character [c], and the names
    filed under a letter: only a one-character letter has any. *)
Definition starting_with (c : ascii) (names : list string) : list string :=
  filter (fun name => String.get 0 name = Some c) names.

Definition names_for (letter : string) (names : list string) : list string :=
  match letter with
  | String c "" => starting_with c names
  | _ => []
  end.

(** The directory after an export of [names]: the unwanted files are
    removed, then each allowed letter gets its file. *)
Definition exported (allowed : gset string) (names : list string)
    (files : gmap string string) : gmap string string :=
  foldl (fun fs letter =>
           <[letter +:+ ".txt" := join newline (names_for letter names)]> fs)
        (sweep allowed files) (elements allowed).

(** Printing several lines, one after the other. *)
Definition emit (lines : list string) : IO unit := fun w =>
  (MkWorld (mount w) (entries w) (stdout w ++ lines), Ok tt).

(** The number of names held by a grouping. *)
Definition total (grouped : gmap string (list string)) : nat :=
  sum_list (length <$> (map_to_list grouped).*2).

(** The files that a removal loop takes away: those that [glob] lists and
    that the test of the loop dooms. *)
Definition purge (doomed : string -> bool) (files : gmap string string)
    : gmap string string :=
  filter (fun entry => matches_star_txt entry.1 && doomed entry.1 = false) files.

(** The test of [clear_output] on a file name. *)
Definition cleared (allowed_letters : option (gset string)) (name : string)
    : bool :=
  let name_without_ext := replace name ".txt" "" in
  (String.length name_without_ext =? 1)%nat &&
  match allowed_letters with
  | None => true
  | Some allowed => bool_decide (name_without_ext ∉ allowed)
  end.


(** [s'] is [s] with white space added at its ends. *)
Definition padded (s s' : string) : Prop :=
  exists l r,
    Forall (fun c => isspace c = true) l /\
    Forall (fun c => isspace c = true) r /\
    chars s' = l ++ chars s ++ r.

(** Two forms that differ by white space at the ends of their text fields. *)
Definition padded_form (f f' : CVCVApp.Form) : Prop :=
  padded (CVCVApp._vowels_var f) (CVCVApp._vowels_var f') /\
  padded (CVCVApp._add_vowels_var f) (CVCVApp._add_vowels_var f') /\
  padded (CVCVApp._consonants_var f) (CVCVApp._consonants_var f') /\
  padded (CVCVApp._add_consonants_var f) (CVCVApp._add_consonants_var f') /\
  padded (CVCVApp._suffix_var f) (CVCVApp._suffix_var f') /\
  padded (CVCVApp._first_var f) (CVCVApp._first_var f') /\
  CVCVApp._include_y f = CVCVApp._include_y f' /\
  CVCVApp._filter_var f = CVCVApp._filter_var f'.

(** ** Strings *)

Lemma chars_str l : chars (str l) = l.
Proof. apply list_ascii_of_string_of_list_ascii. Qed.

Lemma str_chars s : str (chars s) = s.
Proof. apply string_of_list_ascii_of_string. Qed.

Lemma string_app_cons c s t : String c s +:+ t = String c (s +:+ t).
Proof. reflexivity. Qed.

Lemma string_app_nil_l t : "" +:+ t = t.
Proof. reflexivity. Qed.

Lemma chars_app s t : chars (s +:+ t) = chars s ++ chars t.
Proof.
  induction s as [|c s IH]; [done|].
  rewrite string_app_cons. unfold chars in *. simpl. by rewrite IH.
Qed.


Lemma length_chars s : length (chars s) = String.length s.
Proof. induction s as [|c s IH]; simpl; [done|]. unfold chars in *. by rewrite IH. Qed.

Lemma chars_inj s t : chars s = chars t -> s = t.
Proof. intros H. by rewrite <- (str_chars s), <- (str_chars t), H. Qed.

Lemma string_app_nil_r s : s +:+ "" = s.
Proof. induction s as [|c s IH]; [done|]. by rewrite string_app_cons, IH. Qed.

Lemma string_app_assoc s t u : (s +:+ t) +:+ u = s +:+ (t +:+ u).
Proof. induction s as [|c s IH]; [done|]. by rewrite !string_app_cons, IH. Qed.

Lemma string_app_length s t :
  String.length (s +:+ t) = String.length s + String.length t.
Proof. by rewrite <- !length_chars, chars_app, length_app. Qed.

Lemma prefix_char c s :
  String.prefix (String c "") s = true <-> exists s', s = String c s'.
Proof.
  destruct s as [|d s]; simpl.
  - split; [done|]. by intros [s' ?].
  - destruct (ascii_dec c d) as [->|Hne].
    + split; [by eexists|]. intros _. by destruct s.
    + split; [done|]. intros [s' [=]]. congruence.
Qed.

Lemma char_in_spec c s : char_in c s = true <-> c ∈ chars s.
Proof.
  unfold char_in. induction s as [|d s IH].
  - simpl. split; [done|]. intros H. inversion H.
  - cbn [str_in]. rewrite orb_true_iff, IH, prefix_char. simpl.
    rewrite elem_of_cons. split.
    + intros [[s' [= -> _]]|?]; auto.
    + intros [->|?]; [left; by eexists|by right].
Qed.

Lemma char_in_false c s : char_in c s = false <-> c ∉ chars s.
Proof. rewrite <- char_in_spec. by destruct (char_in c s). Qed.

Lemma lower_char_idemp c : lower_char (lower_char c) = lower_char c.
Proof. by destruct c as [[] [] [] [] [] [] [] []]. Qed.

Lemma lower_idemp s : lower (lower s) = lower s.
Proof. induction s as [|c s IH]; simpl; [done|]. by rewrite lower_char_idemp, IH. Qed.

Lemma chars_lower s : chars (lower s) = lower_char <$> chars s.
Proof. induction s as [|c s IH]; simpl; [done|]. unfold chars in *. by rewrite IH. Qed.

Lemma lower_app s t : lower (s +:+ t) = lower s +:+ lower t.
Proof.
  induction s as [|c s IH]; [done|].
  rewrite string_app_cons. simpl. by rewrite IH.
Qed.

(** ** Letter sets *)

Global Instance char_le_trans : Transitive char_le.
Proof. unfold char_le. intros a b c. lia. Qed.

Global Instance char_le_total : Total char_le.
Proof. unfold char_le. intros a b. lia. Qed.

Lemma nat_of_ascii_inj a b : nat_of_ascii a = nat_of_ascii b -> a = b.
Proof. intros H. by rewrite <- (ascii_nat_embedding a), <- (ascii_nat_embedding b), H. Qed.

Lemma char_le_neq_lt a b : char_le a b -> a <> b -> char_lt a b.
Proof.
  unfold char_le, char_lt. intros Hle Hne.
  assert (nat_of_ascii a <> nat_of_ascii b) by (intros ?; by apply Hne, nat_of_ascii_inj).
  lia.
Qed.

Lemma sorted_nodup_strict l :
  StronglySorted char_le l -> NoDup l -> StronglySorted char_lt l.
Proof.
  induction 1 as [|x l Hl IH Hx]; intros Hnd; [constructor|].
  apply NoDup_cons in Hnd as [Hx' Hnd]. constructor; [auto|].
  rewrite Forall_forall in *. intros y Hy.
  apply char_le_neq_lt; [auto|]. intros ->. done.
Qed.

Lemma strict_sorted_nodup l : StronglySorted char_lt l -> NoDup l.
Proof.
  induction 1 as [|x l Hl IH Hx]; constructor; [|done].
  intros Hin. rewrite Forall_forall in Hx. specialize (Hx _ Hin).
  unfold char_lt in Hx. lia.
Qed.

(** [sorted(set(base.lower()))] joined back into a string. *)
Lemma normalized_letter_set base :
  letter_set_of (str (sorted (elements (py_set (lower base))))) base.
Proof.
  unfold letter_set_of. rewrite chars_str. unfold sorted. split.
  - apply sorted_nodup_strict.
    + apply StronglySorted_merge_sort; apply _.
    + rewrite merge_sort_Permutation. apply NoDup_elements.
  - intros c. rewrite merge_sort_Permutation, elem_of_elements.
    unfold py_set. by rewrite elem_of_list_to_set.
Qed.

(** A string has at most one letter set. *)
Lemma letter_set_unique r1 r2 base :
  letter_set_of r1 base -> letter_set_of r2 base -> r1 = r2.
Proof.
  intros [Hs1 Hm1] [Hs2 Hm2]. apply chars_inj.
  apply (StronglySorted_unique_strong char_lt); [|done|done|].
  - unfold char_lt. intros; lia.
  - apply NoDup_Permutation; [by apply strict_sorted_nodup..|].
    intros c. by rewrite Hm1, Hm2.
Qed.

Lemma or_else_provided x d : or_else x d = default d (provided x).
Proof. by destruct x as [[|c s]|]. Qed.

Lemma add_provided base x :
  (if truthy x then base +:+ default "" x else base)
  = base +:+ default "" (provided x).
Proof. destruct x as [[|c s]|]; simpl; by rewrite ?string_app_nil_r. Qed.

Lemma init_vowels v c av ac y f :
  Gename.vowels (Gename.__init__ v c av ac y f)
  = str (sorted (elements (py_set (lower (vowel_base v av y))))).
Proof.
  unfold Gename.__init__, vowel_base. cbn [Gename.vowels].
  rewrite add_provided, or_else_provided.
  by destruct (provided v), y.
Qed.

Lemma filter_not_in_vowels vs (l : list ascii) :
  filter (fun c => char_in c vs = false) l = filter (fun c => c ∉ chars vs) l.
Proof.
  apply list_filter_iff. intros c. apply char_in_false.
Qed.

Lemma init_consonants v c av ac y f :
  Gename.consonants (Gename.__init__ v c av ac y f)
  = str (sorted (elements (py_set (lower
      (consonant_base c ac (Gename.vowels (Gename.__init__ v c av ac y f))))))).
Proof.
  rewrite init_vowels.
  unfold Gename.__init__, consonant_base. cbn [Gename.consonants].
  rewrite !add_provided, !or_else_provided, filter_not_in_vowels.
  destruct c as [[|a s]|]; simpl; try done; by destruct (provided v), y.
Qed.

(** ** Cartesian products *)

Section flat_map.
Context {A B C : Type}.

Lemma flat_map_flat_map (f : A -> list B) (g : B -> list C) l :
  flat_map g (flat_map f l) = flat_map (fun x => flat_map g (f x)) l.
Proof. induction l as [|x l IH]; simpl; [done|]. by rewrite flat_map_app, IH. Qed.

Lemma flat_map_map (f : A -> B) (g : B -> list C) l :
  flat_map g (map f l) = flat_map (fun x => g (f x)) l.
Proof. induction l as [|x l IH]; simpl; [done|]. by rewrite IH. Qed.

Lemma map_flat_map (f : A -> list B) (g : B -> C) l :
  map g (flat_map f l) = flat_map (fun x => map g (f x)) l.
Proof. induction l as [|x l IH]; simpl; [done|]. by rewrite map_app, IH. Qed.

Lemma flat_map_singleton (f : A -> B) l :
  flat_map (fun x => [f x]) l = map f l.
Proof. induction l as [|x l IH]; simpl; [done|]. by rewrite IH. Qed.
End flat_map.

Section product.
Context {A : Type}.
Implicit Types (pool : list A) (pools acc : list (list A)).

Lemma product_from acc pools :
  foldl (fun result pool =>
           flat_map (fun x => map (fun y => x ++ [y]) pool) result) acc pools
  = flat_map (fun pre => map (app pre) (product pools)) acc.
Proof.
  unfold product. revert acc.
  induction pools as [|pool pools IH] using rev_ind; intros acc.
  - simpl. induction acc as [|x acc IHacc]; simpl; [done|].
    by rewrite app_nil_r, <- IHacc.
  - rewrite !foldl_app. simpl. rewrite IH, flat_map_flat_map.
    apply flat_map_ext. intros pre.
    rewrite flat_map_map, map_flat_map. apply flat_map_ext. intros q.
    rewrite map_map. apply map_ext. intros y. by rewrite app_assoc.
Qed.

(** The first pool is the outermost loop. *)
Lemma product_cons pool pools :
  product (pool :: pools)
  = flat_map (fun x => map (cons x) (product pools)) pool.
Proof.
  unfold product at 1. simpl. rewrite product_from, app_nil_r, flat_map_map.
  done.
Qed.

Lemma product_nil : product (@nil (list A)) = [[]].
Proof. done. Qed.

Lemma product_four (a b c d : list A) :
  product [a; b; c; d]
  = flat_map (fun x => flat_map (fun y => flat_map (fun z =>
      map (fun w => [x; y; z; w]) d) c) b) a.
Proof.
  rewrite !product_cons, product_nil.
  apply flat_map_ext. intros x. rewrite map_flat_map.
  apply flat_map_ext. intros y. rewrite map_map, map_flat_map.
  apply flat_map_ext. intros z. rewrite !map_map. simpl.
  by rewrite (flat_map_singleton (fun w => [w])), map_map.
Qed.

Lemma length_product pools :
  length (product pools) = foldr (fun pool n => length pool * n) 1 pools.
Proof.
  induction pools as [|pool pools IH]; [done|].
  rewrite product_cons. simpl. rewrite <- IH.
  apply flat_map_constant_length. intros x _. apply length_map.
Qed.
End product.

(** ** Generators *)

Lemma gen_for_yield {A : Type} (xs : list A) (body : A -> Gen unit) f :
  (forall x, x ∈ xs -> body x = yield (f x)) ->
  gen_for xs body = MkGen (map f xs) (Ok tt).
Proof.
  induction xs as [|x xs IH]; intros Hbody; [done|].
  simpl. rewrite (Hbody x) by left. rewrite IH by (intros; apply Hbody; by right).
  done.
Qed.

(** A loop that yields [f x] for the [x] that pass a test. *)
Lemma gen_for_filter {A : Type} (xs : list A) (body : A -> Gen unit)
    (keep : A -> bool) f :
  (forall x, x ∈ xs -> body x = if keep x then yield (f x) else mret tt) ->
  gen_for xs body = MkGen (map f (filter (fun x => keep x = true) xs)) (Ok tt).
Proof.
  induction xs as [|x xs IH]; intros Hbody; [done|].
  simpl. rewrite (Hbody x) by left. rewrite IH by (intros; apply Hbody; by right).
  rewrite filter_cons. destruct (keep x) eqn:Hk.
  - rewrite decide_True by done. done.
  - rewrite decide_False by done. done.
Qed.

Lemma gen_bind_ret_l {A B : Type} (a : A) (f : A -> Gen B) :
  (mret a ≫= f) = f a.
Proof. unfold mret, mbind, gen_ret, gen_bind. simpl. by destruct (f a). Qed.

Lemma gen_bind_raise_l {A B : Type} e (f : A -> Gen B) :
  (gen_raise e ≫= f) = gen_raise e.
Proof. done. Qed.

Lemma gen_for_ext {A : Type} (xs : list A) (body body' : A -> Gen unit) :
  (forall x, body x = body' x) -> gen_for xs body = gen_for xs body'.
Proof.
  intros Hbody. induction xs as [|x xs IH]; [done|].
  simpl. by rewrite Hbody, IH.
Qed.

Lemma gen_for_gen_raise {A : Type} e (body : string -> Gen unit) :
  gen_for_gen (MkGen [] (Raise e)) body = MkGen [] (Raise e).
Proof. done. Qed.

(** ** The generator *)

Lemma elem_of_nested_loops name F V C :
  name ∈ nested_loops F V C <->
  exists c1 v1 c2 v2,
    name = str [c1; v1; c2; v2] /\ c1 ∈ F /\ v1 ∈ V /\ c2 ∈ C /\ v2 ∈ V.
Proof.
  unfold nested_loops. rewrite list_elem_of_In, in_flat_map. split.
  - intros (c1 & H1 & H). apply in_flat_map in H as (v1 & H2 & H).
    apply in_flat_map in H as (c2 & H3 & H).
    apply in_map_iff in H as (v2 & <- & H4).
    exists c1, v1, c2, v2. by rewrite !list_elem_of_In.
  - intros (c1 & v1 & c2 & v2 & -> & H1 & H2 & H3 & H4).
    rewrite list_elem_of_In in H1, H2, H3, H4.
    exists c1. split; [done|]. apply in_flat_map. exists v1. split; [done|].
    apply in_flat_map. exists c2. split; [done|].
    apply in_map_iff. by exists v2.
Qed.

Lemma length_nested_loops F V C :
  length (nested_loops F V C) = length F * length V * length C * length V.
Proof.
  unfold nested_loops.
  rewrite (flat_map_constant_length (c := length V * (length C * length V)));
    [lia|].
  intros c1 _.
  rewrite (flat_map_constant_length (c := length C * length V)); [lia|].
  intros v1 _. apply flat_map_constant_length. intros c2 _. apply length_map.
Qed.

Lemma unpack_four (F V C : list ascii) :
  gen_for (product [F; V; C; V])
    (fun t =>
       match t with
       | [c1; v1; c2; v2] => yield (str [c1; v1; c2; v2])
       | _ => gen_raise (ValueError "wrong number of values to unpack")
       end)
  = MkGen (nested_loops F V C) (Ok tt).
Proof.
  rewrite (gen_for_yield _ _ str).
  - f_equal. rewrite product_four. unfold nested_loops.
    rewrite map_flat_map. apply flat_map_ext. intros c1.
    rewrite map_flat_map. apply flat_map_ext. intros v1.
    rewrite map_flat_map. apply flat_map_ext. intros c2.
    by rewrite map_map.
  - intros t. rewrite product_four, list_elem_of_In, in_flat_map.
    intros (c1 & _ & H). apply in_flat_map in H as (v1 & _ & H).
    apply in_flat_map in H as (c2 & _ & H).
    by apply in_map_iff in H as (v2 & <- & _).
Qed.

Lemma generate_valid g :
  valid_pin g = true ->
  Gename.generate g
  = MkGen (nested_loops (chars (first_alphabet g)) (chars (Gename.vowels g))
             (chars (Gename.consonants g))) (Ok tt).
Proof.
  unfold valid_pin, first_alphabet, Gename.generate. intros Hpin.
  destruct (Gename.first g) as [[|c pin]|]; cbn [truthy provided] in *.
  - by rewrite gen_bind_ret_l, unpack_four.
  - cbn [default from_option id] in *. rewrite Hpin. cbn [negb].
    by rewrite gen_bind_ret_l, unpack_four.
  - by rewrite gen_bind_ret_l, unpack_four.
Qed.

Lemma generate_invalid g :
  valid_pin g = false ->
  Gename.generate g = MkGen [] (Raise (pin_error (default "" (Gename.first g)))).
Proof.
  unfold valid_pin, Gename.generate. intros Hpin.
  destruct (Gename.first g) as [[|c pin]|];
    cbn [truthy provided default from_option id] in *; try done.
  by rewrite Hpin.
Qed.

Lemma lookup_flat_map_const {A B : Type} (f : A -> list B) n (l : list A) i j x :
  (forall y, y ∈ l -> length (f y) = n) ->
  l !! i = Some x -> j < n ->
  flat_map f l !! (i * n + j) = f x !! j.
Proof.
  revert i. induction l as [|y l IH]; intros i Hlen Hi Hj; [done|].
  simpl. destruct i as [|i]; simpl in Hi.
  - injection Hi as ->. simpl. apply lookup_app_l.
    rewrite Hlen by left. done.
  - rewrite lookup_app_r by (rewrite Hlen by left; lia).
    rewrite Hlen by left.
    replace (S i * n + j - n) with (i * n + j) by lia.
    apply IH; [|done..]. intros z Hz. apply Hlen. by right.
Qed.

Lemma lookup_nested_loops (F V C : list ascii) i j k l c1 v1 c2 v2 :
  F !! i = Some c1 -> V !! j = Some v1 -> C !! k = Some c2 -> V !! l = Some v2 ->
  nested_loops F V C !! (((i * length V + j) * length C + k) * length V + l)
  = Some (str [c1; v1; c2; v2]).
Proof.
  intros Hi Hj Hk Hl.
  pose proof (lookup_lt_Some _ _ _ Hj) as Hj'.
  pose proof (lookup_lt_Some _ _ _ Hk) as Hk'.
  pose proof (lookup_lt_Some _ _ _ Hl) as Hl'.
  set (inner := fun c1 v1 c2 => map (fun v2 => str [c1; v1; c2; v2]) V).
  set (middle := fun c1 v1 => flat_map (inner c1 v1) C).
  set (outer := fun c1 => flat_map (middle c1) V).
  assert (Hinner : forall a b c, length (inner a b c) = length V)
    by (intros; apply length_map).
  assert (Hmiddle : forall a b, length (middle a b) = length C * length V)
    by (intros; apply flat_map_constant_length; auto).
  assert (Houter : forall a, length (outer a) = length V * (length C * length V))
    by (intros; apply flat_map_constant_length; auto).
  change (nested_loops F V C) with (flat_map outer F).
  replace (((i * length V + j) * length C + k) * length V + l)
    with (i * (length V * (length C * length V))
          + (j * (length C * length V) + (k * length V + l))) by lia.
  rewrite (lookup_flat_map_const outer _ F i _ c1); [|auto|done|nia].
  unfold outer.
  rewrite (lookup_flat_map_const (middle c1) _ V j _ v1); [|auto|done|nia].
  unfold middle.
  rewrite (lookup_flat_map_const (inner c1 v1) _ C k _ c2); [|auto|done|done].
  unfold inner. by rewrite list_lookup_fmap, Hl.
Qed.

(** ** Properties of the generator *)

(** C2: when the pin, if any, is in the consonant set, [generate] ends
    normally after |first alphabet| * |vowels| * |consonants| * |vowels|
    names, each of which starts with a letter of the first alphabet; the
    first alphabet is the pinned letter when there is one and the consonant
    set otherwise.  With the default letter sets and the pin "b" that makes
    525 names, which all start with "b". *)
Theorem generate_count (g : Gename.CVCVGenerator) :
  valid_pin g = true ->
  outcome (Gename.generate g) = Ok tt /\
  length (yielded (Gename.generate g))
  = String.length (first_alphabet g) * String.length (Gename.vowels g)
    * String.length (Gename.consonants g) * String.length (Gename.vowels g) /\
  (forall c, Gename.first g = Some (String c "") ->
     String.length (first_alphabet g) = 1) /\
  (Gename.first g = None -> first_alphabet g = Gename.consonants g) /\
  Forall (fun name => exists c rest,
            name = String c rest /\ c ∈ chars (first_alphabet g))
         (yielded (Gename.generate g)) /\
  let b := Gename.__init__ None None None None false (Some "b") in
  first_alphabet b = "b" /\
  1 * 5 * 21 * 5 = 525 /\
  String.length (Gename.vowels b) = 5 /\
  String.length (Gename.consonants b) = 21 /\
  length (yielded (Gename.generate b)) = 525 /\
  forallb (String.prefix "b") (yielded (Gename.generate b)) = true.
Proof.
  intros Hpin. rewrite (generate_valid g Hpin). cbn [outcome yielded].
  split; [done|]. split; [by rewrite length_nested_loops, !length_chars|].
  split; [by unfold first_alphabet; intros c ->|].
  split; [by unfold first_alphabet; intros ->|].
  split; [|by vm_compute].
  apply Forall_forall. intros name Hname.
  apply elem_of_nested_loops in Hname as (c1 & v1 & c2 & v2 & -> & H1 & _).
  by exists c1, (str [v1; c2; v2]).
Qed.

Lemma generate_count_witness :
  let b := Gename.__init__ None None None None false (Some "b") in
  valid_pin b = true /\ outcome (Gename.generate b) = Ok tt.
Proof.
  split; [by vm_compute|].
  apply (generate_count
           (Gename.__init__ None None None None false (Some "b"))).
  by vm_compute.
Defined.

(** C3: [generate] enumerates as four nested loops: over the first
    alphabet, then the vowels, then the consonants, then the vowels again,
    the last varying fastest; so the name made of the letters at positions
    i, j, k, l of the four alphabets is at position
    ((i * |vowels| + j) * |consonants| + k) * |vowels| + l.  With the
    default letter sets and the pin "b" the first three names are "baba",
    "babe", "babi". *)
Theorem generate_order (g : Gename.CVCVGenerator) :
  valid_pin g = true ->
  let F := chars (first_alphabet g) in
  let V := chars (Gename.vowels g) in
  let C := chars (Gename.consonants g) in
  yielded (Gename.generate g) = nested_loops F V C /\
  (forall i j k l c1 v1 c2 v2,
     F !! i = Some c1 -> V !! j = Some v1 ->
     C !! k = Some c2 -> V !! l = Some v2 ->
     yielded (Gename.generate g)
       !! (((i * length V + j) * length C + k) * length V + l)
     = Some (str [c1; v1; c2; v2])) /\
  take 3 (yielded (Gename.generate
                     (Gename.__init__ None None None None false (Some "b"))))
  = ["baba"; "babe"; "babi"].
Proof.
  intros Hpin F V C. rewrite (generate_valid g Hpin). cbn [yielded].
  split; [done|]. split; [|by vm_compute].
  intros. by apply lookup_nested_loops.
Qed.

Lemma generate_order_witness :
  let b := Gename.__init__ None None None None false (Some "b") in
  valid_pin b = true /\
  yielded (Gename.generate b)
  = nested_loops (chars (first_alphabet b)) (chars (Gename.vowels b))
      (chars (Gename.consonants b)).
Proof.
  split; [by vm_compute|].
  apply (generate_order
           (Gename.__init__ None None None None false (Some "b"))).
  by vm_compute.
Defined.

(** ** Filters and the engine *)

Lemma eqb_same_at a b :
  Ascii.eqb a b = bool_decide (Some a = Some b).
Proof.
  destruct (Ascii.eqb_spec a b) as [->|Hne].
  - by rewrite bool_decide_eq_true_2.
  - rewrite bool_decide_eq_false_2; [done|]. by intros [=].
Qed.

(** On a four-character name no index is out of range, and [apply] is the
    policy of the filter's class. *)
Lemma apply_core f c1 v1 c2 v2 :
  Gename.apply f (str [c1; v1; c2; v2])
  = Ok (accepts (policy f) (str [c1; v1; c2; v2])).
Proof.
  destruct f; simpl; unfold same_at; simpl; rewrite ?eqb_same_at; try done.
  by destruct (bool_decide (Some c1 = Some c2)).
Qed.

Lemma run_valid (e : Gename.NameEngine) :
  valid_pin (Gename.generator e) = true ->
  Gename.run e
  = MkGen (map (fun core => core +:+ Gename.suffix e)
             (filter (fun core =>
                        accepts (policy (Gename.name_filter e)) core = true)
                     (yielded (Gename.generate (Gename.generator e)))))
          (Ok tt).
Proof.
  intros Hpin. unfold Gename.run. rewrite (generate_valid _ Hpin).
  unfold gen_for_gen. cbn [yielded outcome].
  rewrite (gen_for_filter _ _
             (accepts (policy (Gename.name_filter e)))
             (fun core => core +:+ Gename.suffix e)).
  - unfold mbind, gen_bind. simpl. by rewrite app_nil_r.
  - intros name Hname.
    apply elem_of_nested_loops in Hname as (c1 & v1 & c2 & v2 & -> & _).
    rewrite apply_core. unfold gen_lift, mbind, gen_bind. cbn [outcome yielded].
    by destruct (accepts _ _).
Qed.

Lemma run_invalid (e : Gename.NameEngine) :
  valid_pin (Gename.generator e) = false ->
  Gename.run e
  = MkGen [] (Raise (pin_error (default "" (Gename.first (Gename.generator e))))).
Proof. intros Hpin. unfold Gename.run. by rewrite (generate_invalid _ Hpin). Qed.

Lemma generated_length g :
  Forall (fun core => String.length core = 4) (yielded (Gename.generate g)).
Proof.
  destruct (valid_pin g) eqn:Hpin.
  - rewrite (generate_valid g Hpin). apply Forall_forall. intros name Hname.
    by apply elem_of_nested_loops in Hname as (c1 & v1 & c2 & v2 & -> & _).
  - rewrite (generate_invalid g Hpin). constructor.
Qed.

(** C1: [run] yields the generated four-character cores that the policy of
    the chosen filter accepts (none: all of them; repeat_vowels: the
    characters at positions 1 and 3 are equal; repeat_consonants: those at
    0 and 2; repeat_both: both), in the order of the generator, each with
    the suffix appended after the test; it ends as the generator ends. *)
Theorem run_filters (e : Gename.NameEngine) :
  let cores := yielded (Gename.generate (Gename.generator e)) in
  yielded (Gename.run e)
  = map (fun core => core +:+ Gename.suffix e)
      (filter (fun core => accepts (policy (Gename.name_filter e)) core = true)
              cores) /\
  outcome (Gename.run e) = outcome (Gename.generate (Gename.generator e)) /\
  Forall (fun core => String.length core = 4) cores /\
  (forall k, policy (Gename.get_filter (kind_name k)) = k) /\
  (forall core,
     accepts KindNone core = true /\
     accepts KindRepeatVowels core
     = bool_decide (String.get 1 core = String.get 3 core) /\
     accepts KindRepeatConsonants core
     = bool_decide (String.get 0 core = String.get 2 core) /\
     accepts KindRepeatBoth core
     = accepts KindRepeatConsonants core && accepts KindRepeatVowels core).
Proof.
  intros cores. subst cores.
  split; [|split; [|split; [apply generated_length|split]]].
  - destruct (valid_pin (Gename.generator e)) eqn:Hpin.
    + by rewrite (run_valid e Hpin).
    + by rewrite (run_invalid e Hpin), (generate_invalid _ Hpin).
  - destruct (valid_pin (Gename.generator e)) eqn:Hpin.
    + by rewrite (run_valid e Hpin), (generate_valid _ Hpin).
    + by rewrite (run_invalid e Hpin), (generate_invalid _ Hpin).
  - by intros [].
  - done.
Qed.

(** ** Letter sets of the builder *)

(** C4: the builder's vowel set is the letter set (lowercased, without
    duplicates, sorted) of the explicit vowels when provided, else of
    "aeiou" with "y" when the flag is set, followed by the additional
    vowels; its consonant set is the letter set of the explicit consonants
    when provided, else of the ASCII lowercase letters that are not in the
    vowel set, followed by the additional consonants.  Each is the only
    string with that property. *)
Theorem init_letter_sets (vowels consonants add_vowels add_consonants : option string)
    (include_y : bool) (first : option string) :
  let g := Gename.__init__ vowels consonants add_vowels add_consonants
             include_y first in
  let vbase := vowel_base vowels add_vowels include_y in
  let cbase := consonant_base consonants add_consonants (Gename.vowels g) in
  letter_set_of (Gename.vowels g) vbase /\
  letter_set_of (Gename.consonants g) cbase /\
  (forall set, letter_set_of set vbase -> set = Gename.vowels g) /\
  (forall set, letter_set_of set cbase -> set = Gename.consonants g).
Proof.
  intros g vbase cbase.
  assert (Hv : letter_set_of (Gename.vowels g) vbase).
  { subst g vbase. rewrite init_vowels. apply normalized_letter_set. }
  assert (Hc : letter_set_of (Gename.consonants g) cbase).
  { subst g cbase. rewrite init_consonants. apply normalized_letter_set. }
  repeat split; try apply Hv; try apply Hc.
  - intros set Hset. by apply (letter_set_unique _ _ vbase).
  - intros set Hset. by apply (letter_set_unique _ _ cbase).
Qed.

(** ** The filter table *)

(** C9: a filter kind outside of none, repeat_vowels, repeat_consonants and
    repeat_both gets the filter that accepts every name, and an engine built
    with it runs as one built with the kind none. *)
Theorem get_filter_unknown (filter_type : string) :
  filter_type ∉ ["none"; "repeat_vowels"; "repeat_consonants"; "repeat_both"] ->
  Gename.get_filter filter_type = Gename.NoFilter /\
  (forall name, Gename.apply (Gename.get_filter filter_type) name = Ok true) /\
  (forall g suffix,
     Gename.run (Gename.MkNameEngine g (Gename.get_filter filter_type) suffix)
     = Gename.run (Gename.MkNameEngine g (Gename.get_filter "none") suffix)).
Proof.
  intros Hkind.
  assert (Hget : Gename.get_filter filter_type = Gename.NoFilter).
  { unfold Gename.get_filter.
    rewrite !lookup_insert_ne, lookup_empty; [done|..];
      intros <-; apply Hkind; set_solver. }
  rewrite Hget. by repeat split.
Qed.

Lemma get_filter_unknown_witness :
  ("vowels" ∉ ["none"; "repeat_vowels"; "repeat_consonants"; "repeat_both"]) /\
  Gename.get_filter "vowels" = Gename.NoFilter.
Proof.
  assert (H : "vowels" ∉ ["none"; "repeat_vowels"; "repeat_consonants"; "repeat_both"]).
  { rewrite !elem_of_cons, elem_of_nil. intros [|[|[|[|[]]]]]; discriminate. }
  split; [exact H|]. apply (get_filter_unknown "vowels" H).
Defined.

(** ** The pinned first letter *)

Lemma init_first_lower v c av ac y pin :
  Gename.__init__ v c av ac y (Some pin)
  = Gename.__init__ v c av ac y (Some (lower pin)).
Proof.
  unfold Gename.__init__. f_equal.
  destruct pin as [|a pin]; [done|]. simpl. by rewrite lower_char_idemp, lower_idemp.
Qed.

(** C10: the builder lowercases the pin, so a pin and its lowercase form give
    the same generator and the same sequence; when the lowercase form is in
    the consonant set the generation succeeds, with the lowercase form as
    the first alphabet. *)
Theorem pin_lowercased (vowels consonants add_vowels add_consonants : option string)
    (include_y : bool) (pin : string) :
  let g := Gename.__init__ vowels consonants add_vowels add_consonants
             include_y (Some pin) in
  let g' := Gename.__init__ vowels consonants add_vowels add_consonants
              include_y (Some (lower pin)) in
  Gename.generate g = Gename.generate g' /\
  (pin <> "" -> str_in (lower pin) (Gename.consonants g) = true ->
   Gename.first g = Some (lower pin) /\
   Gename.generate g
   = MkGen (nested_loops (chars (lower pin)) (chars (Gename.vowels g))
              (chars (Gename.consonants g))) (Ok tt)).
Proof.
  intros g g'. split; [subst g g'; by rewrite init_first_lower|].
  intros Hne Hin.
  assert (Hfirst : Gename.first g = Some (lower pin)).
  { subst g. unfold Gename.__init__. cbn [Gename.first]. by destruct pin. }
  split; [done|].
  assert (Hprov : provided (Gename.first g) = Some (lower pin)).
  { rewrite Hfirst. by destruct pin. }
  rewrite generate_valid.
  - unfold first_alphabet. by rewrite Hprov.
  - unfold valid_pin. by rewrite Hprov.
Qed.

Lemma pin_lowercased_witness :
  let g := Gename.__init__ None None None None false (Some "B") in
  "B" <> "" /\ str_in (lower "B") (Gename.consonants g) = true /\
  Gename.first g = Some "b".
Proof.
  assert (Hne : "B" <> "") by discriminate.
  assert (Hin : str_in (lower "B")
                  (Gename.consonants
                     (Gename.__init__ None None None None false (Some "B")))
                = true) by (by vm_compute).
  split; [exact Hne|]. split; [exact Hin|].
  apply (proj2 (pin_lowercased None None None None false "B") Hne Hin).
Defined.

(** ** The two copies of the pipeline *)

Lemma main_init_eq v c av ac y f :
  cli_generator (Main.__init__ v c av ac y f) = Gename.__init__ v c av ac y f.
Proof. done. Qed.

Lemma main_generate_eq g : Main.generate g = Gename.generate (cli_generator g).
Proof. done. Qed.

Lemma main_apply_eq f name :
  Main.apply f name = Gename.apply (cli_filter f) name.
Proof. by destruct f. Qed.

Lemma main_run_eq e : Main.run e = Gename.run (cli_engine e).
Proof.
  unfold Main.run, Gename.run, gen_for_gen. rewrite main_generate_eq.
  cbn [cli_engine Gename.generator Gename.name_filter Gename.suffix].
  f_equal. apply gen_for_ext. intros name. by rewrite main_apply_eq.
Qed.

(** ** Paths *)

Lemma basename_plain name : char_in "/" name = false -> basename name = name.
Proof. destruct name as [|c name]; [done|]. simpl. by intros ->. Qed.

Lemma char_in_app c s t : char_in c (s +:+ t) = char_in c s || char_in c t.
Proof.
  apply eq_true_iff_eq. rewrite orb_true_iff, !char_in_spec, chars_app.
  apply elem_of_app.
Qed.

Lemma basename_slash s name :
  char_in "/" name = false -> basename (s +:+ "/" +:+ name) = name.
Proof.
  intros Hname. induction s as [|c s IH].
  - rewrite string_app_nil_l, string_app_cons, string_app_nil_l.
    cbn [basename]. replace (char_in "/" (String "/" name)) with true.
    + by apply basename_plain.
    + symmetry. apply char_in_spec. simpl. left.
  - rewrite string_app_cons. cbn [basename].
    replace (char_in "/" (String c (s +:+ "/" +:+ name))) with true; [done|].
    symmetry. apply char_in_spec. simpl. right.
    apply char_in_spec. rewrite char_in_app. apply orb_true_iff. right.
    apply char_in_spec. rewrite string_app_cons. simpl. left.
Qed.

Lemma endswith_slash a : endswith a "/" = true -> exists s, a = s +:+ "/".
Proof.
  unfold endswith. simpl. intros H. apply prefix_char in H as [s' Hs'].
  exists (str (rev (chars s'))). apply chars_inj.
  rewrite chars_app, chars_str. simpl.
  apply (f_equal chars) in Hs'. rewrite chars_str in Hs'. simpl in Hs'.
  apply (f_equal (@rev ascii)) in Hs'. rewrite rev_involutive in Hs'.
  by rewrite Hs'.
Qed.

Lemma prefix_slash_plain name :
  char_in "/" name = false -> String.prefix "/" name = false.
Proof.
  intros Hname. destruct (String.prefix "/" name) eqn:Hp; [|done].
  apply prefix_char in Hp as [s' ->].
  assert (char_in "/" (String "/" s') = true); [|congruence].
  apply char_in_spec. simpl. left.
Qed.

Lemma basename_join folder name :
  char_in "/" name = false -> basename (path_join folder name) = name.
Proof.
  intros Hname. unfold path_join. rewrite prefix_slash_plain by done.
  destruct (String.eqb_spec folder "") as [->|_]; simpl.
  - by apply basename_plain.
  - destruct (endswith folder "/") eqn:Hend.
    + apply endswith_slash in Hend as [s ->]. rewrite string_app_assoc.
      by apply basename_slash.
    + by apply basename_slash.
Qed.

Lemma plain_spec name :
  plain name = true <->
  name <> "" /\ char_in "/" name = false /\ char_in zero name = false.
Proof.
  unfold plain. rewrite !andb_true_iff, !negb_true_iff.
  destruct (String.eqb_spec name "") as [->|Hne]; simpl.
  - split; [by intros [[] ?]|by intros []].
  - tauto.
Qed.

Lemma name_in_folder_join w name :
  plain name = true ->
  name_in_folder w (path_join (mount w) name) = Some name.
Proof.
  intros (Hne & Hslash & Hzero)%plain_spec. unfold name_in_folder.
  rewrite basename_join by done. rewrite String.eqb_refl, Hzero.
  by destruct (String.eqb_spec name "").
Qed.

(** ** Grouping the names by their first character *)

Lemma sum_list_Permutation l k : l ≡ₚ k -> sum_list l = sum_list k.
Proof. induction 1; simpl; lia. Qed.

Lemma total_insert (g : gmap string (list string)) k v :
  total (<[k := v]> g) + length (default [] (g !! k)) = total g + length v.
Proof.
  unfold total. destruct (g !! k) as [old|] eqn:Hk; simpl.
  - rewrite <- (insert_delete_eq g).
    rewrite (sum_list_Permutation _ (length v :: (length <$> (map_to_list (delete k g)).*2))).
    + rewrite (sum_list_Permutation (length <$> (map_to_list g).*2)
                 (length old :: (length <$> (map_to_list (delete k g)).*2))).
      * simpl. lia.
      * rewrite <- (map_to_list_delete g k old Hk). done.
    + rewrite map_to_list_insert by apply lookup_delete_eq. done.
  - rewrite (sum_list_Permutation _ (length v :: (length <$> (map_to_list g).*2))).
    + simpl. lia.
    + rewrite map_to_list_insert by done. done.
Qed.

Lemma total_empty : total ∅ = 0.
Proof. unfold total. by rewrite map_to_list_empty. Qed.

Lemma group_names names (g0 : gmap string (list string)) :
  Forall (fun name => name <> "") names ->
  exists g,
    fold_result Main.group_name names g0 = Ok g /\
    (forall letter,
       default [] (g !! letter)
       = default [] (g0 !! letter) ++ names_for letter names) /\
    total g = total g0 + length names.
Proof.
  intros Hnames. revert g0.
  induction Hnames as [|name names Hname _ IH]; intros g0.
  - exists g0. split; [done|]. split; [|simpl; lia].
    intros letter. destruct letter as [|c [|]]; simpl; by rewrite app_nil_r.
  - destruct name as [|c rest]; [done|].
    set (g1 := <[String c "" := default [] (g0 !! String c "") ++ [String c rest]]> g0).
    destruct (IH g1) as (g & Hfold & Hlookup & Htotal).
    exists g. split; [exact Hfold|]. split.
    + intros letter. rewrite Hlookup. subst g1.
      destruct (decide (letter = String c "")) as [->|Hne].
      * rewrite lookup_insert_eq. simpl. unfold starting_with.
        rewrite filter_cons. simpl. rewrite decide_True by done.
        by rewrite <- app_assoc.
      * rewrite lookup_insert_ne by done. f_equal.
        destruct letter as [|c' [|]]; try done.
        simpl. unfold starting_with. rewrite filter_cons. simpl.
        rewrite decide_False; [done|]. intros [= ->]. done.
    + rewrite Htotal. subst g1.
      pose proof (total_insert g0 (String c "")
                    (default [] (g0 !! String c "") ++ [String c rest])) as H.
      rewrite length_app in H. simpl in *. lia.
Qed.

Lemma get_0_app core suffix :
  core <> "" -> String.get 0 (core +:+ suffix) = String.get 0 core.
Proof. by destruct core. Qed.

Lemma run_names_nonempty (e : Gename.NameEngine) :
  Forall (fun name => name <> "") (yielded (Gename.run e)).
Proof.
  destruct (valid_pin (Gename.generator e)) eqn:Hpin.
  - rewrite (run_valid e Hpin). cbn [yielded]. apply Forall_forall. intros name.
    rewrite list_elem_of_In, in_map_iff. intros (core & <- & Hcore).
    apply list_elem_of_In, list_elem_of_filter in Hcore as [_ Hcore].
    pose proof (generated_length (Gename.generator e)) as Hlen.
    rewrite Forall_forall in Hlen. specialize (Hlen _ Hcore).
    by destruct core.
  - rewrite (run_invalid e Hpin). constructor.
Qed.

(** ** Input and output *)

Lemma io_bind_ok {A B : Type} (m : IO A) (f : A -> IO B) w w' a :
  m w = (w', Ok a) -> (m ≫= f) w = f a w'.
Proof. unfold mbind, io_bind. by intros ->. Qed.


Lemma creatable_spec folder :
  creatable folder = true <-> folder <> "" /\ char_in zero folder = false.
Proof.
  unfold creatable. rewrite andb_true_iff, !negb_true_iff.
  destruct (String.eqb_spec folder "") as [->|Hne]; simpl.
  - split; [by intros [? ?]|by intros [[] ?]].
  - tauto.
Qed.

Lemma usable_folder_spec folder :
  usable_folder folder = true <-> creatable folder = true /\ literal folder = true.
Proof. unfold usable_folder. apply andb_true_iff. Qed.

Lemma makedirs_mount w :
  creatable (mount w) = true ->
  makedirs (mount w) w
  = (MkWorld (mount w) (Some (default ∅ (entries w))) (stdout w), Ok tt).
Proof.
  intros [Hne Hzero]%creatable_spec. unfold makedirs.
  rewrite Hzero, String.eqb_refl. by destruct (String.eqb_spec (mount w) "").
Qed.


Lemma glob_mount m files out :
  literal m = true ->
  glob (path_join m "*.txt") (MkWorld m (Some files) out)
  = (MkWorld m (Some files) out,
     Ok (path_join m <$> filter (fun name => matches_star_txt name = true)
                                (elements (dom files)))).
Proof. intros Hm. unfold glob. simpl. by rewrite String.eqb_refl, Hm. Qed.


Lemma os_remove_present m files out name :
  plain name = true -> is_Some (files !! name) ->
  os_remove (path_join m name) (MkWorld m (Some files) out)
  = (MkWorld m (Some (delete name files)) out, Ok tt).
Proof.
  intros Hplain [content Hname]. unfold os_remove.
  rewrite (name_in_folder_join (MkWorld m (Some files) out)) by done.
  simpl. by rewrite Hname.
Qed.

Lemma write_file_plain m files out name content :
  plain name = true ->
  write_file (path_join m name) content (MkWorld m (Some files) out)
  = (MkWorld m (Some (<[name := content]> files)) out, Ok tt).
Proof.
  intros Hplain. unfold write_file.
  by rewrite (name_in_folder_join (MkWorld m (Some files) out)).
Qed.

(** ** The export loops *)

Lemma io_for_ext {A : Type} (xs : list A) (body body' : A -> IO unit) w :
  (forall x w', body x w' = body' x w') -> io_for xs body w = io_for xs body' w.
Proof.
  intros Hbody. revert w. induction xs as [|x xs IH]; intros w; [done|].
  simpl. unfold mbind, io_bind. rewrite Hbody.
  destruct (body' x w) as [w' [[]|err]]; [apply IH|done].
Qed.

Lemma io_bind_ret_r (m : IO unit) w : (m ≫= fun _ => mret tt) w = m w.
Proof. unfold mbind, io_bind. by destruct (m w) as [w' [[]|err]]. Qed.

(** The loop that removes the unwanted files, on the names that [glob]
    lists; [report] stands for what is printed after each removal. *)
Lemma sweep_loop (msg : string -> list string) (allowed : gset string) m
    (ns : list string) (files : gmap string string) out :
  NoDup ns ->
  (forall n, n ∈ ns -> plain n = true /\ is_Some (files !! n)) ->
  io_for (path_join m <$> ns)
    (fun file_path =>
       if bool_decide (replace (basename file_path) ".txt" "" ∉ allowed)
       then os_remove file_path ≫= fun _ => emit (msg file_path)
       else mret tt)
    (MkWorld m (Some files) out)
  = (MkWorld m
       (Some (foldl (fun fs n =>
                       if bool_decide (replace n ".txt" "" ∉ allowed)
                       then delete n fs else fs) files ns))
       (out ++ flat_map (fun n => msg (path_join m n))
                 (filter (fun n => replace n ".txt" "" ∉ allowed) ns)),
     Ok tt).
Proof.
  revert files out. induction ns as [|n ns IH]; intros files out Hnd Hns.
  - simpl. by rewrite app_nil_r.
  - apply NoDup_cons in Hnd as [Hn Hnd].
    destruct (Hns n) as [Hplain Hfile]; [left|].
    pose proof (proj1 (plain_spec n) Hplain) as (_ & Hslash & _).
    rewrite fmap_cons. cbn [io_for foldl]. rewrite filter_cons.
    rewrite basename_join by done.
    destruct (decide (replace n ".txt" "" ∉ allowed)) as [Hd|Hd].
    + rewrite bool_decide_eq_true_2 by done.
      rewrite (io_bind_ok _ _ _
                 (MkWorld m (Some (delete n files)) (out ++ msg (path_join m n)))
                 tt).
      2: { rewrite (io_bind_ok _ _ _ (MkWorld m (Some (delete n files)) out) tt);
             [done|by apply os_remove_present]. }
      rewrite IH; [|done|].
      * simpl. by rewrite <- app_assoc.
      * intros n' Hn'. destruct (Hns n') as [? ?]; [by right|].
        split; [done|]. rewrite lookup_delete_ne; [done|]. by intros ->.
    + rewrite bool_decide_eq_false_2 by done.
      rewrite (io_bind_ok _ _ _ (MkWorld m (Some files) out) tt) by done.
      rewrite IH; [done..|].
      intros n' Hn'. apply Hns. by right.
Qed.

Lemma lookup_sweep_loop (d : string -> bool) (ns : list string)
    (files : gmap string string) k :
  foldl (fun fs n => if d n then delete n fs else fs) files ns !! k
  = if bool_decide (k ∈ ns) && d k then None else files !! k.
Proof.
  revert files. induction ns as [|n ns IH]; intros files; [done|].
  cbn [foldl]. rewrite IH.
  destruct (decide (k = n)) as [->|Hne].
  - rewrite (bool_decide_eq_true_2 (n ∈ n :: ns)) by left.
    destruct (d n) eqn:Hd; simpl.
    + rewrite lookup_delete_eq. by destruct (bool_decide _).
    + by rewrite andb_false_r.
  - assert (Hiff : bool_decide (k ∈ n :: ns) = bool_decide (k ∈ ns)).
    { apply bool_decide_ext. rewrite elem_of_cons.
      split; [by intros [?|?]|by right]. }
    rewrite Hiff. destruct (bool_decide (k ∈ ns) && d k); [done|].
    destruct (d n); [by rewrite lookup_delete_ne|done].
Qed.

Lemma sweep_loop_files (allowed : gset string) (files : gmap string string) :
  foldl (fun fs n =>
           if bool_decide (replace n ".txt" "" ∉ allowed)
           then delete n fs else fs) files
        (filter (fun name => matches_star_txt name = true)
                (elements (dom files)))
  = sweep allowed files.
Proof.
  apply map_eq. intros k.
  rewrite (lookup_sweep_loop
             (fun n => bool_decide (replace n ".txt" "" ∉ allowed))).
  unfold sweep. rewrite map_lookup_filter. unfold unwanted. cbn [fst].
  destruct (files !! k) as [content|] eqn:Hk; simpl.
  - assert (Hin : bool_decide
                    (k ∈ filter (fun name => matches_star_txt name = true)
                           (elements (dom files)))
                  = matches_star_txt k).
    { apply eq_true_iff_eq. rewrite bool_decide_eq_true, list_elem_of_filter,
        elem_of_elements, elem_of_dom, Hk.
      split; [by intros [? _]|by intros ?; split; [|eexists]]. }
    rewrite Hin.
    destruct (matches_star_txt k && bool_decide (replace k ".txt" "" ∉ allowed));
      [by rewrite option_guard_False|by rewrite option_guard_True].
  - by destruct (_ && _).
Qed.

Lemma plain_txt letter : plain letter = true -> plain (letter +:+ ".txt") = true.
Proof.
  rewrite !plain_spec, !char_in_app. intros (Hne & -> & ->).
  split; [by destruct letter|done].
Qed.

Lemma txt_inj l1 l2 : l1 +:+ ".txt" = l2 +:+ ".txt" -> l1 = l2.
Proof.
  intros H. apply chars_inj. apply (f_equal chars) in H.
  rewrite !chars_app in H. by apply app_inv_tail in H.
Qed.

(** The loop of [main.py] that writes the files and collects their paths. *)
Lemma write_allowed_ok m grouped names letters written files out :
  (forall letter, default [] (grouped !! letter) = names_for letter names) ->
  (forall letter, letter ∈ letters -> plain letter = true) ->
  Main.write_allowed m grouped letters written (MkWorld m (Some files) out)
  = (MkWorld m
       (Some (foldl (fun fs letter =>
                       <[letter +:+ ".txt"
                         := join newline (names_for letter names)]> fs)
                    files letters))
       out,
     Ok (written ++ ((fun letter => path_join m (letter +:+ ".txt")) <$> letters))).
Proof.
  intros Hgrouped. revert written files.
  induction letters as [|letter letters IH]; intros written files Hplain.
  - simpl. by rewrite app_nil_r.
  - cbn [Main.write_allowed foldl].
    erewrite io_bind_ok; [|apply write_file_plain, plain_txt, Hplain; left].
    rewrite IH by (intros; apply Hplain; by right).
    rewrite Hgrouped, fmap_cons, <- app_assoc. done.
Qed.

Lemma lookup_written (names : list string) (letters : list string)
    (files : gmap string string) letter :
  letter ∈ letters ->
  foldl (fun fs l => <[l +:+ ".txt" := join newline (names_for l names)]> fs)
        files letters !! (letter +:+ ".txt")
  = Some (join newline (names_for letter names)).
Proof.
  induction letters as [|l letters IH] using rev_ind; [by intros ?%elem_of_nil|].
  rewrite foldl_app. cbn [foldl]. intros Hin.
  destruct (decide (l = letter)) as [->|Hne]; [by rewrite lookup_insert_eq|].
  rewrite lookup_insert_ne by (intros ?%txt_inj; done).
  apply IH. apply elem_of_app in Hin as [?|Hin]; [done|].
  apply list_elem_of_singleton in Hin. congruence.
Qed.


Lemma flat_map_nil {A B : Type} (l : list A) :
  flat_map (fun _ => @nil B) l = [].
Proof. by induction l. Qed.

Lemma emit_nil w : emit [] w = (w, Ok tt).
Proof. destruct w. unfold emit. simpl. by rewrite app_nil_r. Qed.

Lemma consume_run_valid (e : Gename.NameEngine) :
  valid_pin (Gename.generator e) = true ->
  exists grouped,
    consume (Gename.run e) Main.group_name ∅ = Ok grouped /\
    (forall letter,
       default [] (grouped !! letter)
       = names_for letter (yielded (Gename.run e))) /\
    total grouped = length (yielded (Gename.run e)).
Proof.
  intros Hpin.
  destruct (group_names (yielded (Gename.run e)) ∅ (run_names_nonempty e))
    as (grouped & Hfold & Hlookup & Htotal).
  exists grouped. split; [|split].
  - unfold consume. rewrite Hfold. by rewrite (run_valid e Hpin).
  - intros letter. by rewrite Hlookup, lookup_empty.
  - by rewrite Htotal, total_empty.
Qed.

Lemma glob_names_ok w :
  wf_world w ->
  let ns := filter (fun name => matches_star_txt name = true)
                   (elements (dom (default ∅ (entries w)))) in
  NoDup ns /\
  forall n, n ∈ ns ->
    plain n = true /\ is_Some (default ∅ (entries w) !! n).
Proof.
  intros Hwf ns. split.
  - apply NoDup_filter, NoDup_elements.
  - intros n [_ Hn%elem_of_elements]%list_elem_of_filter.
    split; [by apply Hwf|by apply elem_of_dom].
Qed.

(** What [export_grouped] of [main.py] does when the pin is valid. *)
Lemma main_export_ok (e : Main.NameEngine) (w : World) :
  let allowed := Main.allowed_letters (Main.generator e) in
  let names := yielded (Main.run e) in
  usable_folder (mount w) = true ->
  valid_pin (cli_generator (Main.generator e)) = true ->
  wf_world w ->
  (forall letter, letter ∈ allowed -> plain letter = true) ->
  Main.export_grouped e (mount w) w
  = (MkWorld (mount w)
       (Some (exported allowed names (default ∅ (entries w)))) (stdout w),
     Ok ((fun letter => path_join (mount w) (letter +:+ ".txt"))
           <$> elements allowed,
         length names)).
Proof.
  intros allowed names [Hmake Hlit]%usable_folder_spec Hpin Hwf Hplain.
  subst names.
  rewrite main_run_eq.
  destruct (consume_run_valid (cli_engine e) Hpin)
    as (grouped & Hconsume & Hlookup & Htotal).
  destruct (glob_names_ok w Hwf) as [Hnd Hns].
  unfold Main.export_grouped.
  rewrite (io_bind_ok _ _ _ _ _ (makedirs_mount w Hmake)).
  rewrite main_run_eq, Hconsume.
  rewrite (io_bind_ok _ _ _ _ grouped eq_refl).
  rewrite (io_bind_ok _ _ _ _ _ (glob_mount _ _ _ Hlit)).
  erewrite (io_bind_ok _ _ _ _ tt).
  2: { erewrite io_for_ext.
       - apply (sweep_loop (fun _ => []) allowed); [apply Hnd|apply Hns].
       - intros p w'. simpl. destruct (bool_decide _); [|done].
         unfold mbind, io_bind.
         destruct (os_remove p w') as [w'' [[]|err]]; [|done].
         by rewrite emit_nil. }
  rewrite flat_map_nil, app_nil_r, sweep_loop_files.
  rewrite (io_bind_ok _ _ _ _ _
             (write_allowed_ok _ grouped _ _ _ _ _ Hlookup
                (fun letter Hin => Hplain letter (proj1 (elem_of_elements _ _) Hin)))).
  unfold mret, io_ret, exported. fold (total grouped). by rewrite Htotal.
Qed.

Lemma allowed_letters_pinned (g : Main.CVCVGenerator) pin :
  provided (Main.first g) = Some pin -> Main.allowed_letters g = {[ pin ]}.
Proof.
  unfold Main.allowed_letters. destruct (Main.first g) as [[|c s]|]; try done.
  by intros [= <-].
Qed.

Lemma allowed_letters_free (g : Main.CVCVGenerator) letter :
  provided (Main.first g) = None ->
  letter ∈ Main.allowed_letters g <->
  exists c, letter = String c "" /\ c ∈ chars (Main.consonants g).
Proof.
  unfold Main.allowed_letters. intros Hfree.
  assert (truthy (Main.first g) = false) as ->
    by (by destruct (Main.first g) as [[|c s]|]).
  by rewrite elem_of_list_to_set, list_elem_of_fmap.
Qed.

(** ** Properties of the export *)






(** C7, where the code departs from it: [export_grouped] removes every
    file that [glob] lists for ["*.txt"] and whose name without [.txt] is not
    an allowed letter, whatever the length of that name, where [clear_output]
    keeps the names longer than one character.  With the pin "b", a file
    [notes.txt] of the folder is removed by both copies of [export_grouped]
    and kept by [clear_output]. *)
Theorem export_removes_long_names :
  let e := Gename.MkNameEngine
             (Gename.__init__ None None None None false (Some "b"))
             (Gename.get_filter "none") "" in
  let e' := Main.MkNameEngine
              (Main.__init__ None None None None false (Some "b"))
              Main.NoFilter "" in
  let w := MkWorld "output" (Some {[ "notes.txt" := "keep" ]}) [] in
  (entries (fst (Gename.export_grouped e "output" w)) ≫= (.!! "notes.txt")) = None /\
  stdout (fst (Gename.export_grouped e "output" w))
  = ["Deleted output/notes.txt"; "Wrote output/b.txt";
     newline +:+ "Export complete -> output/"] /\
  (entries (fst (Main.export_grouped e' "output" w)) ≫= (.!! "notes.txt")) = None /\
  (entries (fst (Gename.clear_output "output" (Some {[ "b" ]}) w))
     ≫= (.!! "notes.txt")) = Some "keep".
Proof. by vm_compute. Qed.

(** C8: the generator and the engine embedded in [main.py] are those of
    [gename.py]: built from the same arguments, with filters of the same
    class, [generate] and [run] give the same sequence and the same end. *)
Theorem pipelines_agree :
  (forall vowels consonants add_vowels add_consonants include_y first,
     Main.generate (Main.__init__ vowels consonants add_vowels add_consonants
                      include_y first)
     = Gename.generate (Gename.__init__ vowels consonants add_vowels
                          add_consonants include_y first)) /\
  (forall vowels consonants add_vowels add_consonants include_y first f suffix,
     Main.run (Main.MkNameEngine
                 (Main.__init__ vowels consonants add_vowels add_consonants
                    include_y first) f suffix)
     = Gename.run (Gename.MkNameEngine
                     (Gename.__init__ vowels consonants add_vowels
                        add_consonants include_y first) (cli_filter f) suffix)) /\
  (forall f name, Main.apply f name = Gename.apply (cli_filter f) name) /\
  (forall g, Main.generate g = Gename.generate (cli_generator g)) /\
  (forall e, Main.run e = Gename.run (cli_engine e)).
Proof.
  split; [|split; [|split; [|split]]].
  - intros. by rewrite main_generate_eq, main_init_eq.
  - intros. by rewrite main_run_eq.
  - apply main_apply_eq.
  - apply main_generate_eq.
  - apply main_run_eq.
Qed.

(** ** Further properties of the generator *)

(** X1: with a valid pin or none, [generate] yields exactly the strings made
    of a letter of the first alphabet, a vowel, a consonant and a vowel: the
    pin restricts the first position only. *)
Theorem generate_exhaustive (g : Gename.CVCVGenerator) (name : string) :
  valid_pin g = true ->
  name ∈ yielded (Gename.generate g) <->
  exists c1 v1 c2 v2,
    name = str [c1; v1; c2; v2] /\
    c1 ∈ chars (first_alphabet g) /\ v1 ∈ chars (Gename.vowels g) /\
    c2 ∈ chars (Gename.consonants g) /\ v2 ∈ chars (Gename.vowels g).
Proof.
  intros Hpin. rewrite (generate_valid g Hpin). apply elem_of_nested_loops.
Qed.

Lemma generate_exhaustive_witness :
  let g := Gename.__init__ None None None None false (Some "b") in
  valid_pin g = true /\ "bezu" ∈ yielded (Gename.generate g).
Proof.
  intros g.
  assert (Hpin : valid_pin g = true) by (by vm_compute).
  split; [exact Hpin|].
  apply (generate_exhaustive g "bezu" Hpin).
  exists "b"%char, "e"%char, "z"%char, "u"%char.
  split; [done|]. vm_compute. repeat split; apply list_elem_of_In; simpl; tauto.
Defined.

Lemma NoDup_flat_map {A B : Type} (f : A -> list B) (l : list A) :
  NoDup l ->
  (forall x, x ∈ l -> NoDup (f x)) ->
  (forall x y z, x ∈ l -> y ∈ l -> z ∈ f x -> z ∈ f y -> x = y) ->
  NoDup (flat_map f l).
Proof.
  induction l as [|x l IH]; intros Hl Hf Hdisj; simpl; [constructor|].
  apply NoDup_cons in Hl as [Hx Hl]. apply NoDup_app. split; [|split].
  - apply Hf. left.
  - intros z Hz Hz'. apply list_elem_of_In, in_flat_map in Hz' as (y & Hy & Hz').
    apply list_elem_of_In in Hy, Hz'.
    assert (x = y) by (apply (Hdisj x y z); [left|by right|done..]).
    by subst.
  - apply IH; [done| |].
    + intros y Hy. apply Hf. by right.
    + intros y y' z Hy Hy'. apply Hdisj; by right.
Qed.

Lemma NoDup_nested_loops (F V C : list ascii) :
  NoDup F -> NoDup V -> NoDup C -> NoDup (nested_loops F V C).
Proof.
  intros HF HV HC. unfold nested_loops.
  apply NoDup_flat_map; [done| |].
  - intros c1 _. apply NoDup_flat_map; [done| |].
    + intros v1 _. apply NoDup_flat_map; [done| |].
      * intros c2 _. apply NoDup_fmap_2; [|done]. by intros v2 v2' [=].
      * intros c2 c2' z _ _ Hz Hz'.
        apply list_elem_of_In, in_map_iff in Hz as (v2 & <- & _).
        by apply list_elem_of_In, in_map_iff in Hz' as (v2' & [=] & _).
    + intros v1 v1' z _ _ Hz Hz'.
      apply list_elem_of_In, in_flat_map in Hz as (c2 & _ & Hz).
      apply in_map_iff in Hz as (v2 & <- & _).
      apply list_elem_of_In, in_flat_map in Hz' as (c2' & _ & Hz').
      by apply in_map_iff in Hz' as (v2' & [=] & _).
  - intros c1 c1' z _ _ Hz Hz'.
    apply list_elem_of_In, in_flat_map in Hz as (v1 & _ & Hz).
    apply in_flat_map in Hz as (c2 & _ & Hz).
    apply in_map_iff in Hz as (v2 & <- & _).
    apply list_elem_of_In, in_flat_map in Hz' as (v1' & _ & Hz').
    apply in_flat_map in Hz' as (c2' & _ & Hz').
    by apply in_map_iff in Hz' as (v2' & [=] & _).
Qed.

Lemma prefix_app a s : String.prefix a s = true -> exists t, s = a +:+ t.
Proof.
  revert s. induction a as [|c a IH]; intros s; simpl.
  - intros _. by exists s.
  - destruct s as [|d s]; [done|]. simpl.
    destruct (ascii_dec c d) as [->|]; [|done].
    intros [t ->]%IH. by exists t.
Qed.

(** [sub in s]: [s] is [sub] between two strings. *)
Lemma str_in_app sub s :
  str_in sub s = true -> exists s1 s2, s = s1 +:+ sub +:+ s2.
Proof.
  induction s as [|c s IH]; cbn [str_in]; rewrite orb_true_iff.
  - intros [[t Ht]%prefix_app|]; [|done]. by exists "", t.
  - intros [[t Ht]%prefix_app|[s1 [s2 ->]]%IH]; [by exists "", t|].
    by exists (String c s1), s2.
Qed.

Lemma NoDup_str_in sub s :
  str_in sub s = true -> NoDup (chars s) -> NoDup (chars sub).
Proof.
  intros [s1 [s2 ->]]%str_in_app. rewrite !chars_app.
  intros [_ [_ H]]%NoDup_app. by apply NoDup_app in H as [? _].
Qed.

Lemma init_nodup v c av ac y f :
  let g := Gename.__init__ v c av ac y f in
  NoDup (chars (Gename.vowels g)) /\ NoDup (chars (Gename.consonants g)).
Proof.
  intros g. split; apply strict_sorted_nodup.
  - subst g. rewrite init_vowels. apply normalized_letter_set.
  - subst g. rewrite init_consonants. apply normalized_letter_set.
Qed.

(** X2: a generator made by [__init__] yields no name twice. *)
Theorem generate_nodup (vowels consonants add_vowels add_consonants : option string)
    (include_y : bool) (first : option string) :
  NoDup (yielded (Gename.generate
                    (Gename.__init__ vowels consonants add_vowels add_consonants
                       include_y first))).
Proof.
  set (g := Gename.__init__ _ _ _ _ _ _).
  destruct (init_nodup vowels consonants add_vowels add_consonants include_y first)
    as [HV HC]. fold g in HV, HC.
  destruct (valid_pin g) eqn:Hpin.
  - rewrite (generate_valid g Hpin). cbn [yielded].
    apply NoDup_nested_loops; [|done..].
    unfold first_alphabet, valid_pin in *.
    destruct (provided (Gename.first g)) as [pin|]; [|done].
    by apply (NoDup_str_in pin (Gename.consonants g)).
  - rewrite (generate_invalid g Hpin). constructor.
Qed.

(** ** Further properties of the letter sets *)

Lemma letter_set_lower set base : letter_set_of set base -> lower set = set.
Proof.
  intros [_ Hmem]. apply chars_inj. rewrite chars_lower.
  rewrite <- (list_fmap_id (chars set)) at 2. apply Forall_fmap_ext_1.
  apply Forall_forall. intros c Hc. apply Hmem in Hc.
  rewrite chars_lower in Hc. apply list_elem_of_fmap in Hc as (c' & -> & _).
  apply lower_char_idemp.
Qed.

Lemma letter_set_fixed set base : letter_set_of set base -> letter_set_of set set.
Proof.
  intros Hset. pose proof (letter_set_lower _ _ Hset) as Hlower.
  destruct Hset as [Hsorted _]. split; [done|]. intros c. by rewrite Hlower.
Qed.

Lemma letter_set_nonempty set base :
  letter_set_of set base -> base <> "" -> set <> "".
Proof.
  intros [_ Hmem] Hbase ->. destruct base as [|c base]; [done|].
  specialize (Hmem (lower_char c)). simpl in Hmem.
  assert (lower_char c ∈ @nil ascii) as H; [|by apply elem_of_nil in H].
  apply Hmem. left.
Qed.

Lemma StronglySorted_filter {A : Type} (R : relation A) (P : A -> Prop)
    `{!forall x, Decision (P x)} (l : list A) :
  StronglySorted R l -> StronglySorted R (filter P l).
Proof.
  induction 1 as [|x l Hl IH Hx]; [constructor|].
  rewrite filter_cons. destruct (decide (P x)); [|done].
  constructor; [done|]. rewrite Forall_forall in *.
  intros y [_ Hy]%list_elem_of_filter. by apply Hx.
Qed.

Lemma ascii_lowercase_sorted : StronglySorted char_lt (chars ascii_lowercase).
Proof.
  unfold ascii_lowercase. simpl.
  repeat (constructor; [|repeat constructor; unfold char_lt; simpl; lia]).
  constructor.
Qed.

Lemma ascii_lowercase_lower :
  Forall (fun c => lower_char c = c) (chars ascii_lowercase).
Proof. unfold ascii_lowercase. simpl. repeat constructor. Qed.

Lemma vowel_base_nonempty v av y : vowel_base v av y <> "".
Proof.
  unfold vowel_base. destruct (provided v) as [[|c s]|] eqn:Hv.
  - by destruct v as [[|]|].
  - done.
  - by destruct y.
Qed.

(** X3: the vowel set that [__init__] builds is never empty, and both sets
    are unchanged by [lower]: they hold no uppercase letter. *)
Theorem init_sets_lowercase (vowels consonants add_vowels add_consonants : option string)
    (include_y : bool) (first : option string) :
  let g := Gename.__init__ vowels consonants add_vowels add_consonants
             include_y first in
  Gename.vowels g <> "" /\
  lower (Gename.vowels g) = Gename.vowels g /\
  lower (Gename.consonants g) = Gename.consonants g.
Proof.
  intros g.
  destruct (init_letter_sets vowels consonants add_vowels add_consonants
              include_y first) as (Hv & Hc & _).
  fold g in Hv, Hc. split; [|split].
  - apply (letter_set_nonempty _ _ Hv), vowel_base_nonempty.
  - apply (letter_set_lower _ _ Hv).
  - apply (letter_set_lower _ _ Hc).
Qed.

Lemma normalize_fixed set base :
  letter_set_of set base ->
  str (sorted (elements (py_set (lower set)))) = set.
Proof.
  intros Hset. apply (letter_set_unique _ _ set).
  - apply normalized_letter_set.
  - by apply (letter_set_fixed _ base).
Qed.

(** X4: the letter sets are stable: a generator built from the two sets of
    another one, given as explicit vowels and consonants, has the same
    sets, provided the consonant set is not empty (an empty string counts
    as no argument). *)
Theorem init_round_trip (vowels consonants add_vowels add_consonants : option string)
    (include_y include_y' : bool) (first first' : option string) :
  let g := Gename.__init__ vowels consonants add_vowels add_consonants
             include_y first in
  let g' := Gename.__init__ (Some (Gename.vowels g)) (Some (Gename.consonants g))
              None None include_y' first' in
  Gename.consonants g <> "" ->
  Gename.vowels g' = Gename.vowels g /\
  Gename.consonants g' = Gename.consonants g.
Proof.
  intros g g' Hcons.
  destruct (init_letter_sets vowels consonants add_vowels add_consonants
              include_y first) as (Hv & Hc & _).
  fold g in Hv, Hc.
  assert (Hvne : Gename.vowels g <> "")
    by apply (letter_set_nonempty _ _ Hv), vowel_base_nonempty.
  assert (Hprov : forall s, s <> "" -> provided (Some s) = Some s)
    by (by intros [|]).
  split.
  - subst g'. rewrite init_vowels. unfold vowel_base.
    rewrite (Hprov _ Hvne). cbn [provided default from_option id].
    rewrite string_app_nil_r. apply (normalize_fixed _ _ Hv).
  - subst g'. rewrite init_consonants. unfold consonant_base.
    rewrite (Hprov _ Hcons). cbn [provided default from_option id].
    rewrite string_app_nil_r. apply (normalize_fixed _ _ Hc).
Qed.

Lemma init_round_trip_witness :
  let g := Gename.__init__ (Some "Ea") None (Some "y") (Some "NG") false None in
  let g' := Gename.__init__ (Some (Gename.vowels g)) (Some (Gename.consonants g))
              None None true (Some "b") in
  Gename.consonants g <> "" /\ Gename.vowels g' = Gename.vowels g.
Proof.
  intros g g'.
  assert (Hne : Gename.consonants g <> "") by (by vm_compute).
  split; [exact Hne|].
  apply (init_round_trip (Some "Ea") None (Some "y") (Some "NG")
           false true None (Some "b") Hne).
Defined.

(** X5: without explicit or additional consonants, the consonant set is the
    ASCII lowercase alphabet without the letters of the vowel set, in
    alphabetical order: the two sets share no letter and cover the
    alphabet. *)
Theorem init_default_consonants (vowels consonants add_vowels add_consonants : option string)
    (include_y : bool) (first : option string) :
  let g := Gename.__init__ vowels consonants add_vowels add_consonants
             include_y first in
  provided consonants = None -> provided add_consonants = None ->
  Gename.consonants g
  = str (filter (fun c => c ∉ chars (Gename.vowels g)) (chars ascii_lowercase)) /\
  (forall c, c ∈ chars (Gename.consonants g) ->  c ∉ chars (Gename.vowels g)) /\
  (forall c, c ∈ chars ascii_lowercase ->
     c ∈ chars (Gename.vowels g) \/ c ∈ chars (Gename.consonants g)).
Proof.
  intros g Hc Hac.
  set (rest := filter (fun c => c ∉ chars (Gename.vowels g)) (chars ascii_lowercase)).
  assert (Heq : Gename.consonants g = str rest).
  { subst g. rewrite init_consonants. unfold consonant_base.
    rewrite Hc, Hac. simpl. rewrite string_app_nil_r. fold rest.
    apply (letter_set_unique _ _ (str rest)); [apply normalized_letter_set|].
    split.
    - rewrite chars_str. apply StronglySorted_filter, ascii_lowercase_sorted.
    - intros ch. rewrite chars_lower, chars_str.
      rewrite <- (list_fmap_id rest) at 1. 
      assert (id <$> rest = lower_char <$> rest) as ->; [|done].
      apply Forall_fmap_ext_1, Forall_forall.
      intros x [_ Hx]%list_elem_of_filter.
      pose proof ascii_lowercase_lower as Hlow. rewrite Forall_forall in Hlow.
      symmetry. by apply Hlow. }
  split; [exact Heq|]. rewrite Heq, chars_str. split.
  - by intros ch [? _]%list_elem_of_filter.
  - intros ch Hch. destruct (decide (ch ∈ chars (Gename.vowels g))); [by left|].
    right. by apply list_elem_of_filter.
Qed.

Lemma init_default_consonants_witness :
  let g := Gename.__init__ None None (Some "y") None false None in
  provided (@None string) = None /\
  Gename.consonants g
  = str (filter (fun c => c ∉ chars (Gename.vowels g)) (chars ascii_lowercase)).
Proof.
  intros g. split; [done|].
  apply (init_default_consonants None None (Some "y") None false None
           eq_refl eq_refl).
Defined.

(** ** Further properties of the filters and of [run] *)

(** X6: the filters index the name without checking its length: on a
    name of fewer than four characters [OnlyRepeatingVowels] raises
    [IndexError], on fewer than three so does [OnlyRepeatingConsonants], and
    on three characters [OnlyRepeatingBoth] answers [False] when the first
    and third differ and raises otherwise; from four characters on no filter
    raises, and [NoFilter] never does. *)
Theorem apply_short_name (name : string) :
  let error := IndexError "string index out of range" in
  Gename.apply Gename.NoFilter name = Ok true /\
  (String.length name < 4 ->
   Gename.apply Gename.OnlyRepeatingVowels name = Raise error) /\
  (String.length name < 3 ->
   Gename.apply Gename.OnlyRepeatingConsonants name = Raise error /\
   Gename.apply Gename.OnlyRepeatingBoth name = Raise error) /\
  (String.length name = 3 ->
   Gename.apply Gename.OnlyRepeatingBoth name
   = if bool_decide (String.get 0 name = String.get 2 name)
     then Raise error else Ok false) /\
  (4 <= String.length name ->
   forall f, exists keep, Gename.apply f name = Ok keep).
Proof.
  intros error. split; [done|].
  destruct name as [|a [|b [|c [|d rest]]]]; simpl;
    (split; [try done; lia|]); (split; [try (by split); lia|]);
    (split; [try done; try lia|]); try lia.
  - intros _. rewrite eqb_same_at. by destruct (bool_decide _).
  - intros _ f. destruct f; simpl; eauto. destruct (Ascii.eqb a c); eauto.
Qed.

Lemma get_core_suffix (c1 v1 c2 v2 : ascii) suffix i :
  i < 4 ->
  String.get i (str [c1; v1; c2; v2] +:+ suffix) = String.get i (str [c1; v1; c2; v2]).
Proof.
  intros Hi. unfold str. cbn [string_of_list_ascii].
  rewrite !string_app_cons.
  destruct i as [|[|[|[|i]]]]; simpl; try done. lia.
Qed.

(** X7: every name that [run] yields is a four-character core followed by
    the suffix, and it shows the repetition that the filter asks for at the
    positions of the core, whatever the suffix: positions 1 and 3 are equal
    under [OnlyRepeatingVowels], 0 and 2 under [OnlyRepeatingConsonants],
    both under [OnlyRepeatingBoth]. *)
Theorem run_emits_repeats (e : Gename.NameEngine) (name : string) :
  name ∈ yielded (Gename.run e) ->
  (exists core, name = core +:+ Gename.suffix e /\ String.length core = 4) /\
  match Gename.name_filter e with
  | Gename.OnlyRepeatingVowels => String.get 1 name = String.get 3 name
  | Gename.OnlyRepeatingConsonants => String.get 0 name = String.get 2 name
  | Gename.OnlyRepeatingBoth =>
      String.get 0 name = String.get 2 name /\
      String.get 1 name = String.get 3 name
  | _ => True
  end.
Proof.
  destruct (valid_pin (Gename.generator e)) eqn:Hpin.
  - rewrite (run_valid e Hpin). cbn [yielded].
    rewrite list_elem_of_In, in_map_iff. intros (core & <- & Hcore).
    apply list_elem_of_In, list_elem_of_filter in Hcore as [Hacc Hcore].
    rewrite (generate_valid _ Hpin) in Hcore. cbn [yielded] in Hcore.
    apply elem_of_nested_loops in Hcore as (c1 & v1 & c2 & v2 & -> & _).
    split; [by eexists|].
    rewrite !get_core_suffix by lia.
    destruct (Gename.name_filter e); try done; simpl in Hacc;
      unfold same_at in Hacc; simpl in Hacc.
    + by apply bool_decide_eq_true in Hacc.
    + by apply bool_decide_eq_true in Hacc.
    + apply andb_true_iff in Hacc as [H1 H2].
      by apply bool_decide_eq_true in H1, H2.
  - rewrite (run_invalid e Hpin). by intros ?%elem_of_nil.
Qed.

Lemma run_emits_repeats_witness :
  let e := Gename.MkNameEngine
             (Gename.__init__ (Some "ae") (Some "bcd") None None false None)
             Gename.OnlyRepeatingVowels "io" in
  "bacaio" ∈ yielded (Gename.run e) /\
  String.get 1 "bacaio" = String.get 3 "bacaio".
Proof.
  intros e.
  assert (Hin : "bacaio" ∈ yielded (Gename.run e)).
  { vm_compute. apply list_elem_of_In. simpl. tauto. }
  split; [exact Hin|]. apply (proj2 (run_emits_repeats e "bacaio" Hin)).
Defined.

(** X8: with a valid pin or none, [run] under [OnlyRepeatingBoth] yields
    exactly the names of the form c v c v followed by the suffix, for c in
    the first alphabet and in the consonant set and v in the vowel set. *)
Theorem run_repeat_both_names (g : Gename.CVCVGenerator) (suffix name : string) :
  valid_pin g = true ->
  name ∈ yielded (Gename.run (Gename.MkNameEngine g Gename.OnlyRepeatingBoth suffix))
  <->
  exists c v,
    name = str [c; v; c; v] +:+ suffix /\
    c ∈ chars (first_alphabet g) /\ c ∈ chars (Gename.consonants g) /\
    v ∈ chars (Gename.vowels g).
Proof.
  intros Hpin.
  rewrite (run_valid (Gename.MkNameEngine g Gename.OnlyRepeatingBoth suffix) Hpin).
  cbn [yielded Gename.generator Gename.name_filter Gename.suffix policy].
  rewrite (generate_valid g Hpin). cbn [yielded].
  rewrite list_elem_of_In, in_map_iff. split.
  - intros (core & <- & Hcore).
    apply list_elem_of_In, list_elem_of_filter in Hcore as [Hacc Hcore].
    apply elem_of_nested_loops in Hcore
      as (c1 & v1 & c2 & v2 & -> & H1 & H2 & H3 & H4).
    simpl in Hacc. unfold same_at in Hacc. simpl in Hacc.
    apply andb_true_iff in Hacc as [Hc Hv].
    apply bool_decide_eq_true in Hc, Hv. simplify_eq.
    by exists c2, v2.
  - intros (c & v & -> & H1 & H2 & H3). exists (str [c; v; c; v]).
    split; [done|]. apply list_elem_of_In, list_elem_of_filter. split.
    + simpl. unfold same_at. simpl. by rewrite !bool_decide_eq_true_2.
    + apply elem_of_nested_loops. by exists c, v, c, v.
Qed.

Lemma run_repeat_both_names_witness :
  let g := Gename.__init__ (Some "ae") (Some "bcd") None None false None in
  valid_pin g = true /\
  "dedely" ∈ yielded (Gename.run
                        (Gename.MkNameEngine g Gename.OnlyRepeatingBoth "ly")).
Proof.
  intros g.
  assert (Hpin : valid_pin g = true) by (by vm_compute).
  split; [exact Hpin|].
  apply (run_repeat_both_names g "ly" "dedely" Hpin).
  exists "d"%char, "e"%char. split; [done|]. vm_compute.
  repeat split; apply list_elem_of_In; simpl; tauto.
Defined.

(** ** Removal loops in general *)

Lemma remove_loop (doomed : string -> bool) (msg : string -> list string) m
    (ns : list string) (files : gmap string string) out :
  NoDup ns ->
  (forall n, n ∈ ns -> plain n = true /\ is_Some (files !! n)) ->
  io_for (path_join m <$> ns)
    (fun file_path =>
       if doomed (basename file_path)
       then os_remove file_path ≫= fun _ => emit (msg file_path)
       else mret tt)
    (MkWorld m (Some files) out)
  = (MkWorld m
       (Some (foldl (fun fs n => if doomed n then delete n fs else fs) files ns))
       (out ++ flat_map (fun n => msg (path_join m n))
                 (filter (fun n => doomed n = true) ns)),
     Ok tt).
Proof.
  revert files out. induction ns as [|n ns IH]; intros files out Hnd Hns.
  - simpl. by rewrite app_nil_r.
  - apply NoDup_cons in Hnd as [Hn Hnd].
    destruct (Hns n) as [Hplain Hfile]; [left|].
    pose proof (proj1 (plain_spec n) Hplain) as (_ & Hslash & _).
    rewrite fmap_cons. cbn [io_for foldl]. rewrite filter_cons.
    rewrite basename_join by done.
    destruct (doomed n) eqn:Hd.
    + rewrite decide_True by done.
      rewrite (io_bind_ok _ _ _
                 (MkWorld m (Some (delete n files)) (out ++ msg (path_join m n)))
                 tt).
      2: { rewrite (io_bind_ok _ _ _ (MkWorld m (Some (delete n files)) out) tt);
             [done|by apply os_remove_present]. }
      rewrite IH; [|done|].
      * simpl. by rewrite <- app_assoc.
      * intros n' Hn'. destruct (Hns n') as [? ?]; [by right|].
        split; [done|]. rewrite lookup_delete_ne; [done|]. by intros ->.
    + rewrite decide_False by done.
      rewrite (io_bind_ok _ _ _ (MkWorld m (Some files) out) tt) by done.
      rewrite IH; [done..|].
      intros n' Hn'. apply Hns. by right.
Qed.

Lemma remove_loop_files (doomed : string -> bool) (files : gmap string string) :
  foldl (fun fs n => if doomed n then delete n fs else fs) files
        (filter (fun name => matches_star_txt name = true)
                (elements (dom files)))
  = purge doomed files.
Proof.
  apply map_eq. intros k. rewrite lookup_sweep_loop.
  unfold purge. rewrite map_lookup_filter. cbn [fst].
  destruct (files !! k) as [content|] eqn:Hk; simpl.
  - assert (Hin : bool_decide
                    (k ∈ filter (fun name => matches_star_txt name = true)
                           (elements (dom files)))
                  = matches_star_txt k).
    { apply eq_true_iff_eq. rewrite bool_decide_eq_true, list_elem_of_filter,
        elem_of_elements, elem_of_dom, Hk.
      split; [by intros [? _]|by intros ?; split; [|eexists]]. }
    rewrite Hin.
    destruct (matches_star_txt k && doomed k);
      [by rewrite option_guard_False|by rewrite option_guard_True].
  - by destruct (_ && _).
Qed.

Lemma lookup_purge (doomed : string -> bool) (files : gmap string string) name :
  purge doomed files !! name
  = if matches_star_txt name && doomed name then None else files !! name.
Proof.
  unfold purge. rewrite map_lookup_filter. cbn [fst].
  destruct (files !! name) as [content|]; simpl.
  - destruct (matches_star_txt name && doomed name);
      [by rewrite option_guard_False|by rewrite option_guard_True].
  - by destruct (_ && _).
Qed.


(** The directory after an export, file by file. *)
Lemma lookup_exported_letter (allowed : gset string) names files letter :
  letter ∈ allowed ->
  exported allowed names files !! (letter +:+ ".txt")
  = Some (join newline (names_for letter names)).
Proof.
  intros Hin. unfold exported. apply lookup_written. by apply elem_of_elements.
Qed.



Lemma prefix_app_r a t : String.prefix a (a +:+ t) = true.
Proof.
  induction a as [|c a IH]; [by destruct t|].
  rewrite string_app_cons. simpl. by destruct (ascii_dec c c).
Qed.


(** ** Further properties of the export *)













Lemma run_name_first (e : Gename.NameEngine) name :
  valid_pin (Gename.generator e) = true ->
  name ∈ yielded (Gename.run e) ->
  exists c, String.get 0 name = Some c /\
            c ∈ chars (first_alphabet (Gename.generator e)).
Proof.
  intros Hpin. rewrite (run_valid e Hpin). cbn [yielded].
  rewrite list_elem_of_In, in_map_iff. intros (core & <- & Hcore).
  apply list_elem_of_In, list_elem_of_filter in Hcore as [_ Hcore].
  rewrite (generate_valid _ Hpin) in Hcore. cbn [yielded] in Hcore.
  apply elem_of_nested_loops in Hcore as (c1 & v1 & c2 & v2 & -> & H1 & _).
  exists c1. split; [|done]. by rewrite get_core_suffix by lia.
Qed.

(** X12: with no pin, or a pin of one letter in the consonant set, in a
    folder whose path can name a directory and holds no pattern character,
    the export loses no name: every name that [run] yields starts with an
    allowed letter and is in the file of that letter. *)
Theorem export_files_every_name (e : Main.NameEngine) (w : World) :
  let g := Main.generator e in
  let allowed := Main.allowed_letters g in
  let names := yielded (Main.run e) in
  usable_folder (mount w) = true ->
  valid_pin (cli_generator g) = true ->
  (forall pin, provided (Main.first g) = Some pin -> String.length pin = 1) ->
  wf_world w ->
  (forall letter, letter ∈ allowed -> plain letter = true) ->
  exists files result,
    Main.export_grouped e (mount w) w
    = (MkWorld (mount w) (Some files) (stdout w), Ok result) /\
    forall name, name ∈ names ->
      exists c,
        String.get 0 name = Some c /\ String c "" ∈ allowed /\
        files !! (String c "" +:+ ".txt")
        = Some (join newline (starting_with c names)) /\
        name ∈ starting_with c names.
Proof.
  intros g allowed names Huse Hpin Hone Hwf Hplain. subst g allowed names.
  eexists _, _. split; [by apply main_export_ok|].
  intros name Hname. rewrite main_run_eq in Hname.
  destruct (run_name_first (cli_engine e) name Hpin Hname) as (c & Hget & Hc).
  assert (Hallowed : String c "" ∈ Main.allowed_letters (Main.generator e)).
  { unfold first_alphabet in Hc. cbn [cli_engine Gename.generator cli_generator
      Gename.first Gename.consonants] in Hc.
    destruct (provided (Main.first (Main.generator e))) as [pin|] eqn:Hprov.
    - rewrite (allowed_letters_pinned _ pin Hprov).
      specialize (Hone pin eq_refl).
      destruct pin as [|p [|]]; try done. simpl in Hc.
      apply list_elem_of_singleton in Hc as ->. by apply elem_of_singleton.
    - apply allowed_letters_free; [done|]. by exists c. }
  exists c. split; [done|]. split; [done|]. split.
  - by rewrite (lookup_exported_letter _ _ _ (String c "")), main_run_eq.
  - rewrite <- main_run_eq in Hname. unfold starting_with.
    by apply list_elem_of_filter.
Qed.

Lemma export_files_every_name_witness :
  let e := Main.MkNameEngine
             (Main.__init__ (Some "a") (Some "bc") None None false None)
             Main.NoFilter "" in
  let w := MkWorld "output" None [] in
  valid_pin (cli_generator (Main.generator e)) = true /\
  exists files result,
    Main.export_grouped e (mount w) w
    = (MkWorld (mount w) (Some files) (stdout w), Ok result).
Proof.
  intros e w.
  assert (Hpin : valid_pin (cli_generator (Main.generator e)) = true)
    by (by vm_compute).
  assert (Hone : forall pin, provided (Main.first (Main.generator e)) = Some pin
                             -> String.length pin = 1) by done.
  assert (Hwf : wf_world w).
  { intros name Hname. simpl in Hname. by rewrite dom_empty_L in Hname. }
  assert (Hplain : forall letter,
            letter ∈ Main.allowed_letters (Main.generator e) ->
            plain letter = true).
  { intros letter (c & -> & Hc)%allowed_letters_free; [|done].
    vm_compute in Hc.
    apply elem_of_cons in Hc as [->|Hc]; [done|].
    apply elem_of_cons in Hc as [->|Hc]; [done|].
    by apply elem_of_nil in Hc. }
  split; [exact Hpin|].
  destruct (export_files_every_name e w eq_refl Hpin Hone Hwf Hplain)
    as (files & result & Hexport & _).
  by exists files, result.
Defined.

(** X13: a pin of two characters or more that occurs in the consonant
    string is accepted, and each of its characters starts names; the export,
    in a folder whose path can name a directory and holds no pattern
    character, then writes one file, named after the whole pin, and that file is empty
    although the count returned is the number of names. *)
Theorem export_long_pin (e : Main.NameEngine) (w : World) (pin : string) :
  let g := Main.generator e in
  Main.first g = Some pin ->
  2 <= String.length pin ->
  str_in pin (Main.consonants g) = true ->
  usable_folder (mount w) = true ->
  wf_world w ->
  plain pin = true ->
  Main.generate g
  = MkGen (nested_loops (chars pin) (chars (Main.vowels g))
             (chars (Main.consonants g))) (Ok tt) /\
  exists files,
    Main.export_grouped e (mount w) w
    = (MkWorld (mount w) (Some files) (stdout w),
       Ok ([path_join (mount w) (pin +:+ ".txt")],
           length (yielded (Main.run e)))) /\
    files !! (pin +:+ ".txt") = Some "".
Proof.
  intros g Hfirst Hlen Hin Huse Hwf Hplain. subst g.
  set (g := Main.generator e) in *.
  assert (Hprov : provided (Main.first g) = Some pin).
  { rewrite Hfirst. destruct pin; [simpl in Hlen; lia|done]. }
  assert (Hpin : valid_pin (cli_generator g) = true).
  { unfold valid_pin. cbn [cli_generator Gename.first Gename.consonants].
    by rewrite Hprov. }
  assert (Hallowed : Main.allowed_letters g = {[ pin ]})
    by (by apply allowed_letters_pinned).
  split.
  - rewrite main_generate_eq, (generate_valid _ Hpin). unfold first_alphabet.
    cbn [cli_generator Gename.first Gename.consonants Gename.vowels].
    by rewrite Hprov.
  - eexists. split.
    + rewrite (main_export_ok e w Huse Hpin Hwf).
      * fold g. rewrite Hallowed, elements_singleton. done.
      * fold g. rewrite Hallowed. by intros letter ->%elem_of_singleton.
    + rewrite (lookup_exported_letter _ _ _ pin) by (by apply elem_of_singleton).
      destruct pin as [|a [|b rest]]; simpl in Hlen; try lia. done.
Qed.

Lemma export_long_pin_witness :
  let e := Main.MkNameEngine
             (Main.__init__ (Some "a") (Some "bcd") None None false (Some "bc"))
             Main.NoFilter "" in
  let w := MkWorld "output" None [] in
  Main.first (Main.generator e) = Some "bc" /\
  exists files,
    Main.export_grouped e (mount w) w
    = (MkWorld (mount w) (Some files) (stdout w), Ok (["output/bc.txt"], 6)) /\
    files !! "bc.txt" = Some "".
Proof.
  intros e w. split; [done|].
  assert (Hwf : wf_world w).
  { intros name Hname. simpl in Hname. by rewrite dom_empty_L in Hname. }
  destruct (export_long_pin e w "bc" eq_refl) as (_ & files & Hexport & Hfile);
    [simpl; lia|by vm_compute|reflexivity|exact Hwf|by vm_compute|].
  exists files. split; [|exact Hfile]. rewrite Hexport. by vm_compute.
Defined.

(** X14: in [main.py] too an export with a pin that is not in the
    consonant set, into a folder whose path can name a directory, raises
    the error once the folder is made, with the files that the folder had
    untouched and no file written. *)
Theorem gui_invalid_pin_export (e : Main.NameEngine) (w : World) :
  creatable (mount w) = true ->
  valid_pin (cli_generator (Main.generator e)) = false ->
  Main.export_grouped e (mount w) w
  = (MkWorld (mount w) (Some (default ∅ (entries w))) (stdout w),
     Raise (pin_error (default "" (Main.first (Main.generator e))))).
Proof.
  intros Hmake Hpin. unfold Main.export_grouped.
  rewrite (io_bind_ok _ _ _ _ _ (makedirs_mount w Hmake)).
  by rewrite main_run_eq, (run_invalid (cli_engine e) Hpin).
Qed.

Lemma gui_invalid_pin_export_witness :
  let e := Main.MkNameEngine
             (Main.__init__ None None None None false (Some "e"))
             Main.NoFilter "" in
  let w := MkWorld "output" (Some {[ "b.txt" := "baba" ]}) [] in
  creatable (mount w) = true /\
  valid_pin (cli_generator (Main.generator e)) = false /\
  Main.export_grouped e "output" w
  = (w, Raise (ValueError "First letter 'e' must exist in consonant set.")).
Proof.
  intros e w.
  assert (Hmake : creatable (mount w) = true) by reflexivity.
  assert (Hpin : valid_pin (cli_generator (Main.generator e)) = false)
    by (by vm_compute).
  split; [exact Hmake|]. split; [exact Hpin|].
  apply (gui_invalid_pin_export e w Hmake Hpin).
Defined.

(** ** [clear_output] and [main] *)

Lemma path_exists_mount w :
  path_exists (mount w) w
  = (w, Ok (creatable (mount w) && bool_decide (is_Some (entries w)))).
Proof.
  unfold path_exists. destruct (creatable (mount w)); [|done].
  by rewrite String.eqb_refl.
Qed.

(** X15: when the folder does not exist, [clear_output] says so and does
    nothing else: the folder is not created. *)
Theorem clear_output_missing (allowed_letters : option (gset string)) (w : World) :
  entries w = None ->
  Gename.clear_output (mount w) allowed_letters w
  = (MkWorld (mount w) None (stdout w ++ ["No output folder exists."]), Ok tt).
Proof.
  intros Hnone. unfold Gename.clear_output.
  rewrite (io_bind_ok _ _ _ _ _ (path_exists_mount w)), Hnone.
  rewrite bool_decide_eq_false_2 by (by intros [? ?]).
  rewrite andb_false_r. cbn [negb].
  unfold print. by rewrite Hnone.
Qed.

Lemma clear_output_missing_witness :
  let w := MkWorld "output" None [] in
  entries w = None /\
  Gename.clear_output "output" None w
  = (MkWorld "output" None ["No output folder exists."], Ok tt).
Proof.
  intros w. split; [done|]. apply (clear_output_missing None w eq_refl).
Defined.

Lemma clear_output_ok (allowed_letters : option (gset string)) (w : World) files :
  usable_folder (mount w) = true ->
  wf_world w ->
  entries w = Some files ->
  Gename.clear_output (mount w) allowed_letters w
  = (MkWorld (mount w) (Some (purge (cleared allowed_letters) files))
       (stdout w
        ++ ((fun name => "Deleted " +:+ path_join (mount w) name)
              <$> filter (fun name => cleared allowed_letters name = true)
                    (filter (fun name => matches_star_txt name = true)
                            (elements (dom files))))),
     Ok tt).
Proof.
  intros [Hmake Hlit]%usable_folder_spec Hwf Hfiles.
  destruct (glob_names_ok w Hwf) as [Hnd Hns]. rewrite Hfiles in Hnd, Hns.
  cbn [default from_option id] in Hnd, Hns.
  unfold Gename.clear_output.
  rewrite (io_bind_ok _ _ _ _ _ (path_exists_mount w)), Hfiles, Hmake.
  rewrite bool_decide_eq_true_2 by (by eexists). cbn [negb andb].
  destruct w as [m ents out]. simpl in Hfiles. subst ents.
  cbn [mount stdout] in *.
  rewrite (io_bind_ok _ _ _ _ _ (glob_mount _ _ _ Hlit)).
  erewrite io_for_ext.
  - rewrite (remove_loop (cleared allowed_letters)
               (fun p => ["Deleted " +:+ p])) by done.
    by rewrite remove_loop_files, flat_map_singleton.
  - intros p w'. cbv zeta. unfold cleared.
    destruct (String.length _ =? 1)%nat; [|done].
    cbn [andb]. by destruct allowed_letters as [allowed|]; [destruct (bool_decide _)|].
Qed.

(** X16: in an existing folder whose path can name a directory and holds
    no pattern character, [clear_output] removes the files that
    [glob] lists for ["*.txt"] whose name without [.txt] is one character
    long and, when a set of letters is given, is not in that set; every
    other file is unchanged, in particular every file whose name without
    [.txt] is longer than one character. *)
Theorem clear_output_removes (allowed_letters : option (gset string)) (w : World)
    (files : gmap string string) :
  usable_folder (mount w) = true ->
  wf_world w ->
  entries w = Some files ->
  exists after out,
    Gename.clear_output (mount w) allowed_letters w
    = (MkWorld (mount w) (Some after) out, Ok tt) /\
    (forall name,
       after !! name
       = if matches_star_txt name
            && (String.length (replace name ".txt" "") =? 1)%nat
            && match allowed_letters with
               | None => true
               | Some allowed => bool_decide (replace name ".txt" "" ∉ allowed)
               end
         then None else files !! name) /\
    (forall name, String.length (replace name ".txt" "") <> 1 ->
       after !! name = files !! name).
Proof.
  intros Huse Hwf Hfiles. eexists _, _.
  split; [by apply clear_output_ok|]. split.
  - intros name. rewrite lookup_purge. unfold cleared. by rewrite andb_assoc.
  - intros name Hlen. rewrite lookup_purge. unfold cleared.
    apply Nat.eqb_neq in Hlen. rewrite Hlen. by rewrite andb_false_r.
Qed.

Lemma clear_output_removes_witness :
  let w := MkWorld "output"
             (Some (<[ "x.txt" := "old" ]> {[ "notes.txt" := "keep" ]})) [] in
  wf_world w /\
  exists after out,
    Gename.clear_output "output" None w
    = (MkWorld "output" (Some after) out, Ok tt) /\
    after !! "notes.txt" = Some "keep" /\ after !! "x.txt" = None.
Proof.
  intros w.
  assert (Hwf : wf_world w).
  { intros name Hname. simpl in Hname.
    rewrite dom_insert_L, dom_singleton_L in Hname.
    apply elem_of_union in Hname as [Hname|Hname];
      apply elem_of_singleton in Hname; by subst. }
  split; [exact Hwf|].
  destruct (clear_output_removes None w _ eq_refl Hwf eq_refl)
    as (after & out & Hclear & Hlookup & _).
  exists after, out. split; [exact Hclear|].
  rewrite !Hlookup. vm_compute. split; reflexivity.
Defined.

Lemma io_for_print names w :
  io_for names print w
  = (MkWorld (mount w) (entries w) (stdout w ++ names), Ok tt).
Proof.
  revert w. induction names as [|name names IH]; intros w.
  - destruct w. simpl. by rewrite app_nil_r.
  - cbn [io_for]. rewrite (io_bind_ok _ _ _ _ tt eq_refl), IH.
    cbn [mount entries stdout]. by rewrite <- app_assoc.
Qed.

(** X17: without [--clear] and [--export], [main] prints the names that
    [run] yields for the engine built from the arguments, one per line and
    in order, touches no file, and ends as [run] ends. *)
Theorem main_prints_names (args : Gename.Args) (w : World) :
  let engine :=
    Gename.MkNameEngine
      (Gename.__init__ (Gename.arg_vowels args) (Gename.arg_consonants args)
         (Gename.arg_add_vowels args) (Gename.arg_add_consonants args)
         (Gename.arg_include_y args) (Gename.arg_first args))
      (Gename.get_filter (Gename.arg_filter args)) (Gename.arg_suffix args) in
  Gename.arg_clear args = false ->
  Gename.arg_export args = false ->
  Gename.main args w
  = (MkWorld (mount w) (entries w) (stdout w ++ yielded (Gename.run engine)),
     outcome (Gename.run engine)).
Proof.
  intros engine Hclear Hexport. unfold Gename.main.
  rewrite Hclear, Hexport. fold engine.
  rewrite (io_bind_ok _ _ _ w tt eq_refl).
  unfold io_for_gen.
  by rewrite (io_bind_ok _ _ _ _ tt (io_for_print _ _)).
Qed.

Lemma main_prints_names_witness :
  let args := Gename.MkArgs "repeat_both" "ly" (Some "a") (Some "bc") None
                false false false None None in
  Gename.arg_clear args = false /\
  Gename.main args (MkWorld "output" None [])
  = (MkWorld "output" None ["babaly"; "cacaly"], Ok tt).
Proof.
  intros args. split; [done|].
  rewrite (main_prints_names args (MkWorld "output" None []) eq_refl eq_refl).
  by vm_compute.
Defined.

(** ** The window: form fields, search and display *)

Lemma lstrip_blank l x :
  Forall (fun c => isspace c = true) l -> lstrip_chars (l ++ x) = lstrip_chars x.
Proof. induction 1 as [|c l Hc _ IH]; simpl; [done|]. by rewrite Hc. Qed.

Lemma lstrip_all_blank l :
  Forall (fun c => isspace c = true) l -> lstrip_chars l = [].
Proof.
  intros Hl. rewrite <- (app_nil_r l). by rewrite lstrip_blank.
Qed.

Lemma lstrip_nil_blank x :
  lstrip_chars x = [] -> Forall (fun c => isspace c = true) x.
Proof.
  induction x as [|c x IH]; simpl; [constructor|].
  destruct (isspace c) eqn:Hc; [|done]. intros Hx. constructor; auto.
Qed.

Lemma lstrip_app x r :
  lstrip_chars x <> [] -> lstrip_chars (x ++ r) = lstrip_chars x ++ r.
Proof.
  induction x as [|c x IH]; simpl; [done|].
  destruct (isspace c); [apply IH|done].
Qed.

Lemma Forall_rev_blank (l : list ascii) :
  Forall (fun c => isspace c = true) l ->
  Forall (fun c => isspace c = true) (rev l).
Proof. apply Forall_rev. Qed.

Lemma strip_padded s s' : padded s s' -> strip s' = strip s.
Proof.
  intros (l & r & Hl & Hr & Hs'). unfold strip. rewrite Hs'. f_equal. f_equal.
  rewrite lstrip_blank by done.
  destruct (lstrip_chars (chars s)) as [|c t] eqn:Hx.
  - apply lstrip_nil_blank in Hx.
    by rewrite (lstrip_all_blank (chars s ++ r)) by (by apply Forall_app).
  - rewrite lstrip_app by (by rewrite Hx). rewrite Hx, rev_app_distr.
    by rewrite lstrip_blank by (by apply Forall_rev_blank).
Qed.

(** X18: [_make_generator] ignores the white space around the text of a
    field: two forms that differ only by such white space give the same
    engine; in particular a field left blank counts as an empty field. *)
Theorem make_generator_ignores_padding (f f' : CVCVApp.Form) :
  padded_form f f' ->
  CVCVApp._make_generator f' = CVCVApp._make_generator f.
Proof.
  intros (Hv & Hav & Hc & Hac & Hs & Hf & Hy & Hfilter).
  unfold CVCVApp._make_generator.
  by rewrite (strip_padded _ _ Hv), (strip_padded _ _ Hav), (strip_padded _ _ Hc),
    (strip_padded _ _ Hac), (strip_padded _ _ Hs), (strip_padded _ _ Hf),
    Hy, Hfilter.
Qed.

Lemma padded_intro (l r : list ascii) s :
  forallb isspace l = true -> forallb isspace r = true ->
  padded s (str (l ++ chars s ++ r)).
Proof.
  intros Hl Hr. exists l, r. rewrite chars_str.
  split; [|split; [|done]]; apply Forall_forall; intros c Hc;
    apply list_elem_of_In in Hc.
  - by apply (proj1 (forallb_forall _ _) Hl).
  - by apply (proj1 (forallb_forall _ _) Hr).
Qed.

Lemma make_generator_ignores_padding_witness :
  let f := CVCVApp.MkForm "ae" "" "bcd" "" false "Repeating Both" "io" "" in
  let f' := CVCVApp.MkForm " ae" "   " "bcd  " "" false "Repeating Both"
              "  io " " " in
  padded_form f f' /\
  CVCVApp._make_generator f' = CVCVApp._make_generator f.
Proof.
  intros f f'.
  assert (Hpad : padded_form f f').
  { repeat split.
    - by apply (padded_intro [" "%char] [] "ae").
    - by apply (padded_intro [" "%char; " "%char; " "%char] [] "").
    - by apply (padded_intro [] [" "%char; " "%char] "bcd").
    - by apply (padded_intro [] [] "").
    - by apply (padded_intro [" "%char; " "%char] [" "%char] "io").
    - by apply (padded_intro [" "%char] [] ""). }
  split; [exact Hpad|]. apply (make_generator_ignores_padding f f' Hpad).
Defined.

Lemma str_in_empty n : str_in "" n = true.
Proof. by destruct n. Qed.

Lemma filter_all {A : Type} (P : A -> Prop) `{!forall x, Decision (P x)}
    (l : list A) :
  (forall x, P x) -> filter P l = l.
Proof.
  intros HP. induction l as [|x l IH]; [done|].
  by rewrite filter_cons, decide_True, IH.
Qed.

(** X19: [_on_search] shows the held results that contain the lowercased
    text of the search field, in the order of the results; an empty text
    shows them all, and with no result held nothing is displayed. *)
Theorem on_search_shows (search_var : string) (results : list string) :
  CVCVApp._on_search search_var [] = None /\
  (results <> [] ->
   CVCVApp._on_search search_var results
   = Some (filter (fun n => str_in (lower search_var) n = true) results)) /\
  (results <> [] -> lower search_var = "" ->
   CVCVApp._on_search search_var results = Some results) /\
  (forall shown, CVCVApp._on_search search_var results = Some shown ->
     sublist shown results /\
     forall n, n ∈ shown <->
               n ∈ results /\ str_in (lower search_var) n = true).
Proof.
  assert (Hshown : results <> [] ->
            CVCVApp._on_search search_var results
            = Some (filter (fun n => str_in (lower search_var) n = true) results)).
  { intros Hne. unfold CVCVApp._on_search.
    destruct results as [|r results]; [done|].
    destruct (lower search_var) as [|c q] eqn:Hq; [|done].
    f_equal. symmetry. apply filter_all. intros n. apply str_in_empty. }
  split; [done|]. split; [exact Hshown|]. split.
  - intros Hne Hq. rewrite (Hshown Hne), Hq. f_equal.
    apply filter_all. intros n. apply str_in_empty.
  - intros shown Hsearch. destruct results as [|r results]; [done|].
    rewrite Hshown in Hsearch by done. injection Hsearch as <-.
    split; [apply sublist_filter|].
    intros n. rewrite list_elem_of_filter. tauto.
Qed.

Lemma str_in_refl s : str_in s s = true.
Proof.
  assert (String.prefix s s = true) as Hp.
  { rewrite <- (string_app_nil_r s) at 2. apply prefix_app_r. }
  destruct s; cbn [str_in]; by rewrite Hp.
Qed.

Lemma str_in_same_length s t :
  String.length s = String.length t -> str_in s t = true -> s = t.
Proof.
  intros Hlen [s1 [s2 ->]]%str_in_app.
  rewrite !string_app_length in Hlen.
  destruct s1; [|simpl in Hlen; lia]. destruct s2; [|simpl in Hlen; lia].
  by rewrite string_app_nil_l, string_app_nil_r.
Qed.

Lemma length_lower s : String.length (lower s) = String.length s.
Proof. induction s as [|c s IH]; simpl; [done|]. by rewrite IH. Qed.

(** X20: the search lowercases the text typed but not the names: searching
    for a held name in full shows that name exactly when it has no
    uppercase letter, so a name with an uppercase suffix is not found by
    its own spelling. *)
Theorem on_search_own_name (name : string) (results : list string) :
  name ∈ results ->
  exists shown,
    CVCVApp._on_search name results = Some shown /\
    (name ∈ shown <-> lower name = name).
Proof.
  intros Hin.
  assert (Hne : results <> []) by (intros ->; by apply elem_of_nil in Hin).
  destruct (on_search_shows name results) as (_ & Hshown & _).
  eexists. split; [by apply Hshown|].
  rewrite list_elem_of_filter. split.
  - intros [Hsub _]. apply str_in_same_length; [apply length_lower|done].
  - intros Hlow. split; [|done]. rewrite Hlow. apply str_in_refl.
Qed.

Lemma on_search_own_name_witness :
  "babaIO" ∈ ["babaIO"; "bebeIO"] /\
  exists shown,
    CVCVApp._on_search "babaIO" ["babaIO"; "bebeIO"] = Some shown /\
    ("babaIO" ∈ shown <-> lower "babaIO" = "babaIO").
Proof.
  assert (Hin : "babaIO" ∈ ["babaIO"; "bebeIO"]) by left.
  split; [exact Hin|]. apply (on_search_own_name "babaIO" _ Hin).
Defined.

Lemma chunks_concat {A : Type} (l : list A) c k :
  concat ((fun i => take c (drop i l)) <$> ((fun j => j * c) <$> seq 0 k))
  = take (k * c) l.
Proof.
  induction k as [|k IH]; [done|].
  rewrite seq_S, !fmap_app, concat_app, IH. simpl.
  rewrite app_nil_r, take_take_drop. f_equal. lia.
Qed.

Lemma length_ljust width s :
  String.length (ljust width s) = Nat.max width (String.length s).
Proof.
  unfold ljust. rewrite string_app_length, <- (length_chars (str _)), chars_str.
  rewrite length_replicate. lia.
Qed.

(** X21: [_display] lays the names out in rows of six, in order and
    without losing one: the text is the rows joined by newlines, the rows
    taken together are the names, there are (n + 5) / 6 of them and each
    holds between one and six names; a cell starts with its name and is
    eight characters wide, or as wide as the name when that is longer: no
    name is cut. *)
Theorem display_grid (names : list string) :
  names <> [] ->
  exists rows : list (list string),
    CVCVApp._display names
    = join newline ((fun row => join "   " (ljust 8 <$> row)) <$> rows) /\
    concat rows = names /\
    length rows = (length names + 5) / 6 /\
    Forall (fun row => 1 <= length row <= 6) rows /\
    forall name,
      String.prefix name (ljust 8 name) = true /\
      String.length (ljust 8 name) = Nat.max 8 (String.length name).
Proof.
  intros Hne.
  set (k := (length names + 5) / 6).
  assert (Hrange : range_step (length names) 6 = (fun j => j * 6) <$> seq 0 k).
  { unfold range_step, k. do 3 f_equal. lia. }
  assert (Hlow : 6 * k <= length names + 5) by apply Nat.Div0.mul_div_le.
  assert (Hhigh : length names + 5 < 6 * S k)
    by (by apply Nat.mul_succ_div_gt).
  exists ((fun i => take 6 (drop i names)) <$> range_step (length names) 6).
  split; [|split; [|split; [|split]]].
  - unfold CVCVApp._display. destruct names as [|n ns]; [done|].
    by rewrite <- list_fmap_compose.
  - rewrite Hrange, chunks_concat. apply take_ge. lia.
  - by rewrite Hrange, !length_fmap, length_seq.
  - rewrite Hrange. apply Forall_forall. intros row.
    rewrite <- list_fmap_compose, list_elem_of_fmap.
    intros (j & -> & Hj). apply list_elem_of_In, in_seq in Hj. simpl.
    rewrite length_take, length_drop. lia.
  - intros name. split; [apply prefix_app_r|apply length_ljust].
Qed.

Lemma display_grid_witness :
  let names := ["baba"; "babe"; "babi"; "babo"; "babu"; "baca"; "bace"] in
  names <> [] /\
  exists rows : list (list string),
    CVCVApp._display names
    = join newline ((fun row => join "   " (ljust 8 <$> row)) <$> rows) /\
    concat rows = names /\ length rows = 2.
Proof.
  intros names.
  assert (Hne : names <> []) by done.
  split; [exact Hne|].
  destruct (display_grid names Hne) as (rows & Htext & Hrows & Hlen & _).
  by exists rows.
Defined.

(** ** Dictionary order *)

Lemma StronglySorted_flat_map {A B : Type} (R : relation A) (S : relation B)
    (f : A -> list B) (l : list A) :
  StronglySorted R l ->
  (forall x, x ∈ l -> StronglySorted S (f x)) ->
  (forall x y a b, R x y -> x ∈ l -> y ∈ l -> a ∈ f x -> b ∈ f y -> S a b) ->
  StronglySorted S (flat_map f l).
Proof.
  induction 1 as [|x l Hl IH Hx]; intros Hf Hcross; simpl; [constructor|].
  apply StronglySorted_app_2.
  - intros a b Ha Hb.
    apply list_elem_of_In, in_flat_map in Hb as (y & Hy & Hb).
    apply list_elem_of_In in Hy, Hb. rewrite Forall_forall in Hx.
    apply (Hcross x y); [by apply Hx|left|by right|done..].
  - apply Hf. left.
  - apply IH.
    + intros y Hy. apply Hf. by right.
    + intros y z a b Hyz Hy Hz. apply Hcross; [done|by right..].
Qed.

Lemma StronglySorted_map_in {A B : Type} (R : relation A) (S : relation B)
    (g : A -> B) (l : list A) :
  StronglySorted R l ->
  (forall x y, x ∈ l -> y ∈ l -> R x y -> S (g x) (g y)) ->
  StronglySorted S (map g l).
Proof.
  induction 1 as [|x l Hl IH Hx]; intros Hg; simpl; constructor.
  - apply IH. intros y z Hy Hz. apply Hg; by right.
  - apply Forall_forall. intros b Hb. rewrite Forall_forall in Hx.
    apply list_elem_of_In, in_map_iff in Hb as (y & <- & Hy).
    apply list_elem_of_In in Hy. apply Hg; [left|by right|by apply Hx].
Qed.

Lemma char_compare_lt a b : Ascii.compare a b = Lt <-> char_lt a b.
Proof.
  unfold Ascii.compare, char_lt, nat_of_ascii. rewrite N.compare_lt_iff. lia.
Qed.

Lemma char_compare_refl a : Ascii.compare a a = Eq.
Proof. apply N.compare_refl. Qed.

Lemma compare_suffix a b s t :
  String.length a = String.length b ->
  String.compare a b = Lt -> String.compare (a +:+ s) (b +:+ t) = Lt.
Proof.
  revert b. induction a as [|c a IH]; intros [|d b] Hlen; try done.
  rewrite !string_app_cons. simpl.
  destruct (Ascii.compare c d); [|done..].
  apply IH. simpl in Hlen. lia.
Qed.

Lemma nested_loops_sorted (F V C : list ascii) :
  StronglySorted char_lt F -> StronglySorted char_lt V ->
  StronglySorted char_lt C ->
  StronglySorted (fun a b => String.compare a b = Lt) (nested_loops F V C).
Proof.
  intros HF HV HC. unfold nested_loops.
  apply (StronglySorted_flat_map char_lt); [done| |].
  - intros c1 _. apply (StronglySorted_flat_map char_lt); [done| |].
    + intros v1 _. apply (StronglySorted_flat_map char_lt); [done| |].
      * intros c2 _. apply (StronglySorted_map_in char_lt); [done|].
        intros v2 v2' _ _ Hlt%char_compare_lt. simpl.
        by rewrite !char_compare_refl, Hlt.
      * intros c2 c2' a b Hlt%char_compare_lt _ _ Ha Hb.
        apply list_elem_of_In, in_map_iff in Ha as (v2 & <- & _).
        apply list_elem_of_In, in_map_iff in Hb as (v2' & <- & _).
        simpl. by rewrite !char_compare_refl, Hlt.
    + intros v1 v1' a b Hlt%char_compare_lt _ _ Ha Hb.
      apply list_elem_of_In, in_flat_map in Ha as (c2 & _ & Ha).
      apply in_map_iff in Ha as (v2 & <- & _).
      apply list_elem_of_In, in_flat_map in Hb as (c2' & _ & Hb).
      apply in_map_iff in Hb as (v2' & <- & _).
      simpl. by rewrite char_compare_refl, Hlt.
  - intros c1 c1' a b Hlt%char_compare_lt _ _ Ha Hb.
    apply list_elem_of_In, in_flat_map in Ha as (v1 & _ & Ha).
    apply in_flat_map in Ha as (c2 & _ & Ha).
    apply in_map_iff in Ha as (v2 & <- & _).
    apply list_elem_of_In, in_flat_map in Hb as (v1' & _ & Hb).
    apply in_flat_map in Hb as (c2' & _ & Hb).
    apply in_map_iff in Hb as (v2' & <- & _).
    simpl. by rewrite Hlt.
Qed.

Lemma sorted_str_in sub s :
  str_in sub s = true -> StronglySorted char_lt (chars s) ->
  StronglySorted char_lt (chars sub).
Proof.
  intros [s1 [s2 ->]]%str_in_app. rewrite !chars_app.
  intros H%StronglySorted_app_1_r. by apply StronglySorted_app_1_l in H.
Qed.

(** X22: the names come out in dictionary order: for a generator made by
    [__init__], whatever the filter and the suffix, the names that
    [generate] yields and those that [run] yields are strictly increasing
    in the order of Python strings. *)
Theorem names_in_dictionary_order
    (vowels consonants add_vowels add_consonants : option string)
    (include_y : bool) (first : option string) (f : Gename.NameFilter)
    (suffix : string) :
  let g := Gename.__init__ vowels consonants add_vowels add_consonants
             include_y first in
  StronglySorted (fun a b => String.compare a b = Lt)
    (yielded (Gename.generate g)) /\
  StronglySorted (fun a b => String.compare a b = Lt)
    (yielded (Gename.run (Gename.MkNameEngine g f suffix))).
Proof.
  intros g.
  destruct (init_letter_sets vowels consonants add_vowels add_consonants
              include_y first) as ([HV _] & [HC _] & _).
  fold g in HV, HC.
  assert (Hgen : StronglySorted (fun a b => String.compare a b = Lt)
                   (yielded (Gename.generate g))).
  { destruct (valid_pin g) eqn:Hpin.
    - rewrite (generate_valid g Hpin). cbn [yielded].
      apply nested_loops_sorted; [|done..].
      unfold first_alphabet, valid_pin in *.
      destruct (provided (Gename.first g)) as [pin|]; [|done].
      by apply (sorted_str_in pin (Gename.consonants g)).
    - rewrite (generate_invalid g Hpin). constructor. }
  split; [exact Hgen|].
  destruct (valid_pin g) eqn:Hpin.
  - rewrite (run_valid (Gename.MkNameEngine g f suffix) Hpin).
    cbn [yielded Gename.generator Gename.suffix Gename.name_filter].
    apply (StronglySorted_map_in (fun a b => String.compare a b = Lt)).
    + by apply StronglySorted_filter.
    + intros a b [_ Ha]%list_elem_of_filter [_ Hb]%list_elem_of_filter Hlt.
      pose proof (generated_length g) as Hlen. rewrite Forall_forall in Hlen.
      apply compare_suffix; [|done]. by rewrite (Hlen a), (Hlen b).
  - rewrite (run_invalid (Gename.MkNameEngine g f suffix) Hpin). constructor.
Qed.

(** X23: in a folder whose path can name a directory and holds no pattern
    character, an export returns one path for each allowed letter, all
    different, each the folder joined with [<letter>.txt], whose base name
    is that file name. *)
Theorem export_written_paths (e : Main.NameEngine) (w : World) :
  let allowed := Main.allowed_letters (Main.generator e) in
  usable_folder (mount w) = true ->
  valid_pin (cli_generator (Main.generator e)) = true ->
  wf_world w ->
  (forall letter, letter ∈ allowed -> plain letter = true) ->
  exists world written total,
    Main.export_grouped e (mount w) w = (world, Ok (written, total)) /\
    NoDup written /\
    length written = size allowed /\
    (forall path, path ∈ written <->
       exists letter, letter ∈ allowed /\
                      path = path_join (mount w) (letter +:+ ".txt")) /\
    (forall path, path ∈ written ->
       exists letter, letter ∈ allowed /\ basename path = letter +:+ ".txt").
Proof.
  intros allowed Huse Hpin Hwf Hplain.
  eexists _, _, _. split; [by apply main_export_ok|].
  assert (Hbase : forall letter, letter ∈ allowed ->
            basename (path_join (mount w) (letter +:+ ".txt")) = letter +:+ ".txt").
  { intros letter Hin. apply basename_join.
    pose proof (plain_txt letter (Hplain letter Hin)) as Hp.
    by apply plain_spec in Hp as (_ & ? & _). }
  split; [|split; [|split]].
  - apply NoDup_fmap_2_strong; [|apply NoDup_elements].
    intros l1 l2 H1%elem_of_elements H2%elem_of_elements Heq.
    apply txt_inj. by rewrite <- (Hbase l1), <- (Hbase l2), Heq.
  - by rewrite length_fmap.
  - intros path. rewrite list_elem_of_fmap. split.
    + intros (letter & -> & Hin%elem_of_elements). by exists letter.
    + intros (letter & Hin & ->). exists letter. by rewrite elem_of_elements.
  - intros path (letter & -> & Hin%elem_of_elements)%list_elem_of_fmap.
    exists letter. split; [done|]. by apply Hbase.
Qed.

Lemma export_written_paths_witness :
  let e := Main.MkNameEngine
             (Main.__init__ (Some "a") (Some "bc") None None false None)
             Main.NoFilter "" in
  let w := MkWorld "output" None [] in
  valid_pin (cli_generator (Main.generator e)) = true /\
  exists world written total,
    Main.export_grouped e (mount w) w = (world, Ok (written, total)) /\
    NoDup written.
Proof.
  intros e w.
  assert (Hpin : valid_pin (cli_generator (Main.generator e)) = true)
    by (by vm_compute).
  assert (Hwf : wf_world w).
  { intros name Hname. simpl in Hname. by rewrite dom_empty_L in Hname. }
  assert (Hplain : forall letter,
            letter ∈ Main.allowed_letters (Main.generator e) ->
            plain letter = true).
  { intros letter (c & -> & Hc)%allowed_letters_free; [|done].
    vm_compute in Hc.
    apply elem_of_cons in Hc as [->|Hc]; [done|].
    apply elem_of_cons in Hc as [->|Hc]; [done|].
    by apply elem_of_nil in Hc. }
  split; [exact Hpin|].
  destruct (export_written_paths e w eq_refl Hpin Hwf Hplain)
    as (world & written & total & Hexport & Hnd & _).
  by exists world, written, total.
Defined.
